(** * The 8-puzzle A* exercise: a shallow embedding of [astar.py] and
    [statistics.py], and the properties of its specification.

    Conventions of the embedding.
    - A puzzle (a Python 9-tuple, reshaped by numpy to a 3x3 array) is a
      flat [list nat] in row-major order: the cell at (row, col) is the
      entry at index [3 * row + col].  Tile values are non-negative.
    - A Python exception is the result [None].
    - Python floats (the weights and the scores) are exact rationals [Q],
      and the search adds and multiplies them exactly.  [binary64] is the
      rounding of a float operation; it is applied where the exact score
      and the float score of the program part ways.
    - [Node] objects live in a store (a list indexed by node id); [parent]
      and [children] hold node ids, so that the aliasing between the search
      tree, the frontier and the cost table is the one of the program. *)

From Stdlib Require Import ZArith QArith Qround Qabs Lia.
From stdpp Require Import base option list gmap strings.

Local Open Scope string_scope.
Local Open Scope list_scope.
Local Open Scope nat_scope.

Set Warnings "-register-all".

Module Astar.

(** ** numpy helpers *)

(** [np.reshape(t, (3, 3))]: raises unless [t] has exactly 9 entries.  The
    array is kept flat. *)
Definition np_reshape33 (t : list nat) : option (list nat) :=
  if decide (length t = 9) then Some t else None.

(** Flat index of the cell at [(row, col)] of a 3x3 array. *)
Definition cell (row col : nat) : nat := 3 * row + col.

(** [pos[idx] = np.arange(len(idx))]: the k-th entry of [idx] names the cell
    that receives [k]; an index outside the array raises. *)
Fixpoint scatter (pos : list (option nat)) (idx : list nat) (k : nat)
  : option (list (option nat)) :=
  match idx with
  | [] => Some pos
  | v :: idx' =>
      if decide (v < length pos)
      then scatter (<[v := Some k]> pos) idx' (S k)
      else None
  end.

(** [np.empty(nn, dtype=int)] leaves its cells unspecified: a cell is
    [None] until it is written, and reading such a cell yields no result. *)
Definition np_empty (nn : nat) : list (option nat) := replicate nn None.

Definition np_read (a : list (option nat)) : option (list Z) :=
  mapM (fmap Z.of_nat) a.

Definition np_sum (a : list Z) : Z := foldr Z.add 0%Z a.

(** ** Heuristics *)

Definition build_position_matrix (matrix : list nat) : option (list Z) :=
  let n := 3 in
  let nn := n * n in
  pos_matrix ← scatter (np_empty nn) matrix 0;
  np_read pos_matrix.

(** [n = pos_matrix1.shape] is the 1-tuple [(9,)], so [% n] and [// n]
    broadcast the number 9 over the array. *)
Definition manhattan_distance (start goal : list nat) : option Z :=
  start ← np_reshape33 start;
  goal ← np_reshape33 goal;
  pos_matrix1 ← build_position_matrix start;
  pos_matrix2 ← build_position_matrix goal;
  let n := Z.of_nat (length pos_matrix1) in
  let x_init_pos := (λ p, p `mod` n)%Z <$> pos_matrix1 in
  let y_init_pos := (λ p, p `div` n)%Z <$> pos_matrix1 in
  let x_goal_pos := (λ p, p `mod` n)%Z <$> pos_matrix2 in
  let y_goal_pos := (λ p, p `div` n)%Z <$> pos_matrix2 in
  let distance_x := zip_with (λ g i, Z.abs (g - i)) x_goal_pos x_init_pos in
  let distance_y := zip_with (λ g i, Z.abs (g - i)) y_goal_pos y_init_pos in
  let distance := zip_with Z.add distance_x distance_y in
  Some (np_sum distance).

Definition hamming_distance (start goal : list nat) : option Z :=
  start ← np_reshape33 start;
  goal ← np_reshape33 goal;
  Some (foldr (λ i misplaced,
                 if decide (start !!! i ≠ goal !!! i)
                 then (misplaced + 1)%Z else misplaced)
              0%Z (seq 0 9)).

(** ** Solvability *)

Definition is_solvable (start : list nat) : option bool :=
  start ← np_reshape33 start;
  let k := filter (λ v, v ≠ 0) start in
  let num_inversions :=
    sum_list ((λ i, length (filter (λ w, w < k !!! i) (drop (i + 1) k)))
                <$> seq 0 (length k - 1)) in
  Some (bool_decide (num_inversions `mod` 2 = 0)).

(** ** Search-tree nodes *)

(** [class Node], one cell of the node store.  [parent] and [children] are
    references (node ids); [children] starts empty whatever the
    constructor's argument, as in [__init__]. *)
Record Node := mkNode {
  name : string;
  puzzle : list nat;
  parent : option nat;
  children : list nat;
  heuristic : Q;
}.

Definition Node_init (name : string) (puzzle : list nat) (parent : option nat)
    (children : list nat) (heuristic : Q) : Node :=
  {| name := name; puzzle := puzzle; parent := parent; children := [];
     heuristic := heuristic |}.

Definition append_child (child : nat) (n : Node) : Node :=
  {| name := name n; puzzle := puzzle n; parent := parent n;
     children := children n ++ [child]; heuristic := heuristic n |}.

Definition set_heuristic (h : Q) (n : Node) : Node :=
  {| name := name n; puzzle := puzzle n; parent := parent n;
     children := children n; heuristic := h |}.

(** The tree owned by a node through its [children] lists, as the recursive
    metrics walk it. *)
Inductive Tree := TNode (node : Node) (kids : list Tree).

Definition tree_node (t : Tree) : Node := let 'TNode n _ := t in n.
Definition tree_kids (t : Tree) : list Tree := let 'TNode _ k := t in k.

(** Snapshot of the tree below node [id] of a store.  Children are always
    allocated after their parent, so [length nodes] is enough fuel. *)
Fixpoint tree_of (fuel : nat) (nodes : list Node) (id : nat) : option Tree :=
  match fuel with
  | 0 => None
  | S fuel' =>
      nd ← nodes !! id;
      kids ← mapM (tree_of fuel' nodes) (children nd);
      Some (TNode nd kids)
  end.

(** ** Metrics *)

(** [Node.__len__]: the inner [visited_nodes_recursion] and the [1 +]. *)
Fixpoint visited_nodes_recursion (node : Tree) : nat :=
  let 'TNode _ kids := node in
  foldl (λ visited_nodes child,
           visited_nodes + 1 + visited_nodes_recursion child) 0 kids.

Definition Node_len (self : Tree) : nat := 1 + visited_nodes_recursion self.

Fixpoint expanded_nodes_recursion (node : Tree) : nat :=
  let 'TNode _ kids := node in
  foldl (λ expanded_nodes child,
           match tree_kids child with
           | [] => expanded_nodes
           | _ => expanded_nodes + (expanded_nodes_recursion child + 1)
           end) 0 kids.

Definition calculate_expanded_nodes (root : Tree) : nat :=
  let expanded_nodes := 1 in
  expanded_nodes + expanded_nodes_recursion root.

(** Python's [/] on numbers: division by zero raises. *)
Definition calculate_branching_factor (visited_nodes expanded_nodes : Q)
  : option Q :=
  if Qeq_bool expanded_nodes 0 then None
  else Some ((visited_nodes - 1) / expanded_nodes)%Q.

(** [reconstruct_path]: follows [parent] references in the store; the fuel
    bounds the [while] loop. *)
Fixpoint reconstruct_path (fuel : nat) (nodes : list Node) (node : nat)
  : option (list nat) :=
  match fuel with
  | 0 => None
  | S fuel' =>
      nd ← nodes !! node;
      match parent nd with
      | Some p => path ← reconstruct_path fuel' nodes p; Some (node :: path)
      | None => Some [node]
      end
  end.

(** ** Neighbours *)

(** [np.where(parent_puzzle == 0)] followed by [row[0]], [col[0]]: the
    coordinates of the first blank in row-major order; raises if there is
    none. *)
Definition where_blank (p : list nat) : option (nat * nat) :=
  '(i, _) ← list_find (λ v, v = 0) p;
  Some (i `div` 3, i `mod` 3).

(** [node_puzzle[row][col] = node_puzzle[row'][col']; node_puzzle[row'][col'] = 0] *)
Definition slide (p : list nat) (row col row' col' : nat) : list nat :=
  let p1 := <[cell row col := p !!! cell row' col']> p in
  <[cell row' col' := 0]> p1.

Definition get_neighbors (parent_id : nat) (parent : Node) : option (list Node) :=
  parent_puzzle ← np_reshape33 (puzzle parent);
  '(row, col) ← where_blank parent_puzzle;
  let neighbors := [] in
  let neighbors :=
    if decide (row ≠ 0 ∧ name parent ≠ "down")
    then neighbors ++ [Node_init "up" (slide parent_puzzle row col (row - 1) col)
                                 (Some parent_id) [] 0]
    else neighbors in
  let neighbors :=
    if decide (row ≠ 3 - 1 ∧ name parent ≠ "up")
    then neighbors ++ [Node_init "down" (slide parent_puzzle row col (row + 1) col)
                                 (Some parent_id) [] 0]
    else neighbors in
  let neighbors :=
    if decide (col ≠ 0 ∧ name parent ≠ "right")
    then neighbors ++ [Node_init "left" (slide parent_puzzle row col row (col - 1))
                                 (Some parent_id) [] 0]
    else neighbors in
  let neighbors :=
    if decide (col ≠ 3 - 1 ∧ name parent ≠ "left")
    then neighbors ++ [Node_init "right" (slide parent_puzzle row col row (col + 1))
                                 (Some parent_id) [] 0]
    else neighbors in
  Some neighbors.

(** ** Python values compared by the frontier's membership test *)

Inductive PyVal :=
  | PyInt (z : Z)
  | PyFloat (x : Q)
  | PyNode (id : nat)
  | PyPair (a b : PyVal).

(** Python's [==].  Numbers compare by value, nodes by [Node.__eq__] (same
    class and equal puzzles), tuples componentwise; values of different
    kinds are unequal. *)
Fixpoint py_eq (nodes : list Node) (x y : PyVal) : bool :=
  match x, y with
  | PyInt a, PyInt b => bool_decide (a = b)
  | PyInt a, PyFloat b | PyFloat b, PyInt a => Qeq_bool (inject_Z a) b
  | PyFloat a, PyFloat b => Qeq_bool a b
  | PyNode a, PyNode b =>
      match nodes !! a, nodes !! b with
      | Some na, Some nb => bool_decide (puzzle na = puzzle nb)
      | _, _ => false
      end
  | PyPair a1 a2, PyPair b1 b2 => py_eq nodes a1 b1 && py_eq nodes a2 b2
  | _, _ => false
  end.

(** [x in item] for a tuple [item]: equality with one of its components. *)
Definition py_in (nodes : list Node) (x item : PyVal) : bool :=
  match item with
  | PyPair a b => py_eq nodes x a || py_eq nodes x b
  | _ => false
  end.

(** A frontier entry [(score, node)]. *)
Definition Entry : Type := Q * nat.

Definition entry_val (e : Entry) : PyVal := PyPair (PyFloat e.1) (PyNode e.2).

(** ** Weighted combination of heuristics *)

Definition Heuristic : Type := list nat → list nat → option Z.

Fixpoint combine_loop (start goal : list nat) (heuristics : list Heuristic)
    (weights : list Q) (i : nat) (total : Q) : option Q :=
  match heuristics with
  | [] => Some total
  | heuristic :: heuristics' =>
      w ← weights !! i;
      if negb (Qle_bool w 0)
      then v ← heuristic start goal;
           combine_loop start goal heuristics' weights (S i)
                        (total + w * inject_Z v)%Q
      else combine_loop start goal heuristics' weights (S i) total
  end.

Definition combine_heuristics (start goal : list nat)
    (heuristics : list Heuristic) (weights : list Q) : option Q :=
  combine_loop start goal heuristics weights 0 0%Q.

(** ** The frontier *)

(** [queue.PriorityQueue] is library code; the search relies on its contract
    only: [put] adds an entry, [get] removes an entry of least score.  Which
    of several least entries comes out is left to the instance. *)
Record PriorityQueue := {
  pq_put : Entry → list Entry → list Entry;
  pq_get : list Entry → option (Entry * list Entry);
  pq_put_perm : ∀ e q, pq_put e q ≡ₚ e :: q;
  pq_get_perm : ∀ q e q', pq_get q = Some (e, q') → q ≡ₚ e :: q';
  pq_get_least : ∀ q e q', pq_get q = Some (e, q') →
                           Forall (λ e', (e.1 <= e'.1)%Q) q';
  pq_get_nonempty : ∀ q, q ≠ [] → is_Some (pq_get q);
}.

(** A concrete queue: entries in insertion order, [get] takes the first
    entry of least score. *)
Fixpoint extract_least (e : Entry) (q : list Entry) : Entry * list Entry :=
  match q with
  | [] => (e, [])
  | e' :: q' =>
      let '(m, r) := extract_least e' q' in
      if Qle_bool e.1 m.1 then (e, q) else (m, e :: r)
  end.

Definition fifo_put (e : Entry) (q : list Entry) : list Entry := q ++ [e].

Definition fifo_get (q : list Entry) : option (Entry * list Entry) :=
  match q with
  | [] => None
  | e :: q' => Some (extract_least e q')
  end.

(** ** The search *)

Record SearchState := mkState {
  nodes : list Node;
  open_set : list Entry;
  g_score : gmap (list nat) nat;
}.

Inductive Outcome :=
  | Found (current root : nat)
  | Exhausted
  | Raised.

(** Control points of [a_star]: the [while] test, the [for] loop with the
    neighbours still to visit, and the return. *)
Inductive Config :=
  | Loop (σ : SearchState)
  | ForEach (σ : SearchState) (current : nat) (neighbors : list nat)
  | Return (σ : SearchState) (r : Outcome).

Definition config_state (c : Config) : SearchState :=
  match c with Loop σ | ForEach σ _ _ | Return σ _ => σ end.

Section a_star.
Variable pq : PriorityQueue.
Variables (goal : list nat) (heuristics : list Heuristic) (weights : list Q).

Definition a_star_init (start : list nat) : Config :=
  let root := Node_init "root" start None [] 0 in
  let g_score : gmap (list nat) nat := {[ puzzle root := 0 ]} in
  match combine_heuristics (puzzle root) goal heuristics weights with
  | None => Return (mkState [root] [] g_score) Raised
  | Some h =>
      let score := (inject_Z 0 + h)%Q in
      let root := set_heuristic score root in
      Loop (mkState [root] (pq_put pq (score, 0) []) g_score)
  end.

(** One pass through the [while] test: take the least entry, stop at the
    goal, otherwise create the neighbours. *)
Definition loop_step (σ : SearchState) : Config :=
  match open_set σ with
  | [] => Return σ Exhausted
  | _ =>
      match pq_get pq (open_set σ) with
      | None => Return σ Raised
      | Some ((_, current), rest) =>
          let σ := mkState (nodes σ) rest (g_score σ) in
          match nodes σ !! current with
          | None => Return σ Raised
          | Some cur =>
              if decide (puzzle cur = goal) then Return σ (Found current 0)
              else
                match get_neighbors current cur with
                | None => Return σ Raised
                | Some neighbors =>
                    ForEach (mkState (nodes σ ++ neighbors) rest (g_score σ))
                            current
                            (seq (length (nodes σ)) (length neighbors))
                end
          end
      end
  end.

(** The membership test of the source:
    [any((neighbor.heuristic, neighbor) in item for item in open_set.queue)]. *)
Definition in_open_set (σ : SearchState) (e : Entry) : bool :=
  existsb (λ item, py_in (nodes σ) (entry_val e) (entry_val item)) (open_set σ).

(** One pass through the body of the [for] loop. *)
Definition for_step (σ : SearchState) (current neighbor : nat)
    (rest : list nat) : Config :=
  let σ := mkState (alter (append_child neighbor) current (nodes σ))
                   (open_set σ) (g_score σ) in
  match nodes σ !! current, nodes σ !! neighbor with
  | Some cur, Some nb =>
      match g_score σ !! puzzle cur with
      | None => Return σ Raised
      | Some g =>
          let tentative_g_score := g + 1 in
          if match g_score σ !! puzzle nb with
             | Some old => bool_decide (tentative_g_score < old)
             | None => true
             end
          then
            let σ := mkState (nodes σ) (open_set σ)
                             (<[puzzle nb := tentative_g_score]> (g_score σ)) in
            match combine_heuristics (puzzle nb) goal heuristics weights with
            | None => Return σ Raised
            | Some h =>
                let score := (inject_Z (Z.of_nat tentative_g_score) + h)%Q in
                let σ := mkState (alter (set_heuristic score) neighbor (nodes σ))
                                 (open_set σ) (g_score σ) in
                if negb (in_open_set σ (score, neighbor))
                then ForEach (mkState (nodes σ)
                                      (pq_put pq (score, neighbor) (open_set σ))
                                      (g_score σ))
                             current rest
                else ForEach σ current rest
            end
          else ForEach σ current rest
      end
  | _, _ => Return σ Raised
  end.

Definition step (c : Config) : Config :=
  match c with
  | Loop σ => loop_step σ
  | ForEach σ current [] => Loop σ
  | ForEach σ current (neighbor :: rest) => for_step σ current neighbor rest
  | Return σ r => Return σ r
  end.

(** The configuration after [n] steps of the run from [start]. *)
Definition a_star_run (start : list nat) (n : nat) : Config :=
  Nat.iter n step (a_star_init start).

(** [a_star]: the final store and outcome, if the run returns within
    [fuel] steps. *)
Definition a_star (fuel : nat) (start : list nat)
  : option (SearchState * Outcome) :=
  match a_star_run start fuel with
  | Return σ r => Some (σ, r)
  | _ => None
  end.
End a_star.

(** ** Metrics of a finished run and the entry point *)

Record Metrics := mkMetrics {
  m_path : list nat;
  m_visited_nodes : nat;
  m_expanded_nodes : nat;
  m_branching_factor : Q;
}.

Definition generate_metrics (σ : SearchState) (current root : nat)
  : option Metrics :=
  path ← reconstruct_path (length (nodes σ)) (nodes σ) current;
  root ← tree_of (length (nodes σ)) (nodes σ) root;
  let visited_nodes := Node_len root in
  let expanded_nodes := calculate_expanded_nodes root in
  branching_factor ← calculate_branching_factor
                       (inject_Z (Z.of_nat visited_nodes))
                       (inject_Z (Z.of_nat expanded_nodes));
  Some (mkMetrics path visited_nodes expanded_nodes branching_factor).

Inductive SolveResult :=
  | SolveNameError
  | SolveRaised
  | SolveNotSolvable (start : list nat)
  | SolveOutOfFuel
  | SolveSolved (m : Metrics).

(** The part of [solve] after the solvability gate: the search and its
    metrics.  Unpacking [False] (an exhausted frontier) raises. *)
Definition solve_search (search : option (SearchState * Outcome)) : SolveResult :=
  match search with
  | None => SolveOutOfFuel
  | Some (σ, Found current root) =>
      match generate_metrics σ current root with
      | Some m => SolveSolved m
      | None => SolveRaised
      end
  | Some (_, Exhausted) | Some (_, Raised) => SolveRaised
  end.

(** [solve].  [initial_state] is the module-level name that the gate reads;
    it is bound only when the file runs as a script. *)
Definition solve (initial_state : option (list nat)) (pq : PriorityQueue)
    (fuel : nat) (start goal : list nat) (heuristics : list Heuristic)
    (weights : list Q) : SolveResult :=
  match initial_state with
  | None => SolveNameError
  | Some initial_state =>
      match is_solvable initial_state with
      | None => SolveRaised
      | Some solvable =>
          if negb solvable then SolveNotSolvable start
          else solve_search (a_star pq goal heuristics weights fuel start)
      end
  end.

End Astar.

Module Statistics.
Import Astar.

(** The record returned by [start_run]; the elapsed time is left out. *)
Record RunRecord := mkRun {
  r_array : list nat;
  r_weights : list Q;
  r_expanded_nodes : PyVal;
  r_depth : Z;
}.

(** [path, expanded_nodes = a_star(...)] binds the two nodes that [a_star]
    returns; [len(path)] is [Node.__len__]. *)
Definition start_run (pq : PriorityQueue) (fuel : nat) (start : list nat)
    (weights : list Q) (goal : list nat) : option RunRecord :=
  match a_star pq goal [manhattan_distance; hamming_distance] weights fuel start with
  | Some (σ, Found path expanded_nodes) =>
      path ← tree_of (length (nodes σ)) (nodes σ) path;
      Some (mkRun start weights (PyNode expanded_nodes)
                  (Z.of_nat (Node_len path) - 1))
  | _ => None
  end.

End Statistics.

Import Astar Statistics.

(** * Vocabulary of the specification *)

(** A state: every value 0..8 exactly once. *)
Definition is_state (p : list nat) : Prop := p ≡ₚ seq 0 9.

Definition canonical_goal : list nat := seq 0 9.

Global Instance is_state_dec p : Decision (is_state p).
Proof. unfold is_state. apply _. Defined.

(** Index of the first cell of [s] holding [v]. *)
Definition index_of (v : nat) (s : list nat) : nat :=
  from_option fst 0 (list_find (λ w, w = v) s).

Definition row_of (v : nat) (s : list nat) : Z := Z.of_nat (index_of v s `div` 3).
Definition col_of (v : nat) (s : list nat) : Z := Z.of_nat (index_of v s `mod` 3).

(** The Manhattan distance as the specification words it: over all nine
    values, row distance plus column distance in the 3x3 grid. *)
Definition grid_distance (state goal : list nat) : Z :=
  np_sum ((λ v, Z.abs (row_of v state - row_of v goal)
                + Z.abs (col_of v state - col_of v goal))%Z <$> seq 0 9).

(** The distance between the flat indices of every value. *)
Definition flat_distance (state goal : list nat) : Z :=
  np_sum ((λ v, Z.abs (Z.of_nat (index_of v goal) - Z.of_nat (index_of v state)))
            <$> seq 0 9).

(** Exchange the contents of cells [i] and [j]. *)
Definition swap_cells (i j : nat) (p : list nat) : list nat :=
  <[i := p !!! j]> (<[j := p !!! i]> p).

(** One legal move: any neighbour of the state seen as a root. *)
Definition legal_move (s s' : list nat) : Prop :=
  ∃ nbs n, get_neighbors 0 (Node_init "root" s None [] 0) = Some nbs
           ∧ n ∈ nbs ∧ puzzle n = s'.

(** [moves k s g]: [g] is reached from [s] by [k] legal moves. *)
Inductive moves : nat → list nat → list nat → Prop :=
  | moves_O s : moves 0 s s
  | moves_S k s s' g : legal_move s s' → moves k s' g → moves (S k) s g.

(** Number of nodes of a tree that have at least one child. *)
Fixpoint nodes_with_children (t : Tree) : nat :=
  let 'TNode _ kids := t in
  (match kids with [] => 0 | _ => 1 end) + sum_list (nodes_with_children <$> kids).

(** Inversions of a sequence: pairs in descending order, counted from the
    left element of each pair. *)
Fixpoint inversions (k : list nat) : nat :=
  match k with
  | [] => 0
  | x :: k' => length (filter (λ w, w < x) k') + inversions k'
  end.

(** Inversions with the left element in [a] and the right one in [l]. *)
Definition cross_inversions (a l : list nat) : nat :=
  sum_list ((λ x, length (filter (λ w, w < x) l)) <$> a).

(** The directions and their reverses. *)
Definition reverse_move (d : string) : string :=
  if decide (d = "up") then "down"
  else if decide (d = "down") then "up"
  else if decide (d = "left") then "right"
  else if decide (d = "right") then "left"
  else "".

(** Whether moving the blank at [(row, col)] in direction [d] stays on the
    board. *)
Definition in_bounds (d : string) (row col : nat) : Prop :=
  (d = "up" ∧ row ≠ 0) ∨ (d = "down" ∧ row ≠ 2)
  ∨ (d = "left" ∧ col ≠ 0) ∨ (d = "right" ∧ col ≠ 2).

Definition directions : list string := ["up"; "down"; "left"; "right"].

(** The cell that the blank at [(row, col)] reaches by direction [d]. *)
Definition moved_cell (d : string) (row col : nat) : nat :=
  if decide (d = "up") then cell (row - 1) col
  else if decide (d = "down") then cell (row + 1) col
  else if decide (d = "left") then cell row (col - 1)
  else cell row (col + 1).

(** Cells [b] and [c] of the 3x3 grid share an edge. *)
Definition adjacent (b c : nat) : Prop :=
  b < 9 ∧ c < 9 ∧
  ((b `div` 3 = c `div` 3 ∧ (b `mod` 3 = c `mod` 3 + 1 ∨ c `mod` 3 = b `mod` 3 + 1))
   ∨ (b `mod` 3 = c `mod` 3 ∧ (b `div` 3 = c `div` 3 + 1 ∨ c `div` 3 = b `div` 3 + 1))).

(** ** Invariant of the search *)

Section invariant.
Variables (goal : list nat) (heuristics : list Heuristic) (weights : list Q).

(** A frontier entry is backed by a node without children, and its score
    is a path cost, not below the best one known for the puzzle, plus the
    combined heuristic of the puzzle. *)
Definition entry_ok (σ : SearchState) (e : Entry) : Prop :=
  ∃ nd g gmin h,
    nodes σ !! e.2 = Some nd ∧ children nd = []
    ∧ g_score σ !! puzzle nd = Some gmin ∧ gmin ≤ g
    ∧ combine_heuristics (puzzle nd) goal heuristics weights = Some h
    ∧ (e.1 == inject_Z (Z.of_nat g) + h)%Q.

(** Entries of different nodes with the same puzzle differ in score. *)
Definition scores_differ (ns : list Node) (q : list Entry) : Prop :=
  ∀ e1 e2 n1 n2,
    e1 ∈ q → e2 ∈ q → e1.2 ≠ e2.2 →
    ns !! e1.2 = Some n1 → ns !! e2.2 = Some n2 →
    puzzle n1 = puzzle n2 → ¬ (e1.1 == e2.1)%Q.

Definition frontier_ok (σ : SearchState) : Prop :=
  NoDup (snd <$> open_set σ)
  ∧ Forall (entry_ok σ) (open_set σ)
  ∧ scores_differ (nodes σ) (open_set σ).

Definition search_inv (c : Config) : Prop :=
  match c with
  | Loop σ => frontier_ok σ
  | ForEach σ current pending =>
      frontier_ok σ
      ∧ (current ∉ snd <$> open_set σ)
      ∧ NoDup pending
      ∧ ∀ id, id ∈ pending →
              id ≠ current ∧ (id ∉ snd <$> open_set σ)
              ∧ ∃ nd, nodes σ !! id = Some nd ∧ children nd = []
  | Return σ r =>
      frontier_ok σ
      ∧ match r with
        | Found current _ => ∃ nd, nodes σ !! current = Some nd ∧ children nd = []
        | _ => True
        end
  end.
End invariant.

(** The nodes behind the ids [ids] keep their puzzle and children from
    store [ns] to store [ns']. *)
Definition store_keeps (ids : list nat) (ns ns' : list Node) : Prop :=
  ∀ id nd, id ∈ ids → ns !! id = Some nd →
           ∃ nd', ns' !! id = Some nd' ∧ puzzle nd' = puzzle nd
                  ∧ children nd' = children nd.

(** No two cells of the frontier hold entries that Python's [==] equates. *)
Definition entries_distinct (σ : SearchState) : Prop :=
  ∀ i j e1 e2,
    open_set σ !! i = Some e1 → open_set σ !! j = Some e2 → i ≠ j →
    py_eq (nodes σ) (entry_val e1) (entry_val e2) = false.

(** ** Binary64 rounding *)

(** The nearest integer, ties to the even one. *)
Definition round_half_even (x : Q) : Z :=
  let f := Qfloor x in
  match (x - inject_Z f ?= 1 # 2)%Q with
  | Lt => f
  | Gt => (f + 1)%Z
  | Eq => if Z.even f then f else (f + 1)%Z
  end.

(** The exponent [e] with [2^52 <= |x| / 2^e < 2^53], for [x] other than 0. *)
Definition binary64_exponent (x : Q) : Z :=
  let a := Qabs x in
  let e := (Z.log2 (Qnum a) - Z.log2 (Zpos (Qden a)) - 52)%Z in
  if Qle_bool (2 ^ (e + 52)) a then e else (e - 1)%Z.

(** The result of a float operation whose exact result is [x]: the nearest
    number with a significand of 53 bits, ties to the even significand.
    Overflow and subnormal numbers are left out. *)
Definition binary64 (x : Q) : Q :=
  if Qeq_bool x 0 then 0%Q
  else let e := binary64_exponent x in
       Qred (inject_Z (round_half_even (x / 2 ^ e)) * 2 ^ e).

(** * The concrete frontier satisfies the queue contract *)

Lemma extract_least_perm e q m r :
  extract_least e q = (m, r) → e :: q ≡ₚ m :: r.
Proof.
  revert e m r. induction q as [|e' q IH]; intros e m r; simpl.
  - intros [= <- <-]. done.
  - destruct (extract_least e' q) as [m' r'] eqn:E.
    destruct (Qle_bool e.1 m'.1); intros [= <- <-]; [done|].
    rewrite (IH _ _ _ E). apply Permutation_swap.
Qed.

Lemma extract_least_le e q m r :
  extract_least e q = (m, r) → Forall (λ e', (m.1 <= e'.1)%Q) (e :: q).
Proof.
  revert e m r. induction q as [|e' q IH]; intros e m r; simpl.
  - intros [= <- <-]. constructor; [apply Qle_refl | constructor].
  - destruct (extract_least e' q) as [m' r'] eqn:E.
    specialize (IH _ _ _ E).
    destruct (Qle_bool e.1 m'.1) eqn:L; intros [= <- <-].
    + apply Qle_bool_iff in L. constructor; [apply Qle_refl|].
      eapply Forall_impl; [exact IH|]. simpl. intros x Hx.
      eapply Qle_trans; eauto.
    + constructor; [|exact IH].
      destruct (Qlt_le_dec m'.1 e.1) as [Hlt|Hle].
      * by apply Qlt_le_weak.
      * apply Qle_bool_iff in Hle. congruence.
Qed.

Lemma fifo_put_perm e q : fifo_put e q ≡ₚ e :: q.
Proof. unfold fifo_put. by rewrite Permutation_app_comm. Qed.

Lemma fifo_get_perm q e q' : fifo_get q = Some (e, q') → q ≡ₚ e :: q'.
Proof.
  destruct q as [|e0 q]; simpl; [done|]. intros [= H].
  by apply extract_least_perm.
Qed.

Lemma fifo_get_least q e q' :
  fifo_get q = Some (e, q') → Forall (λ e', (e.1 <= e'.1)%Q) q'.
Proof.
  destruct q as [|e0 q]; simpl; [done|]. intros [= H].
  pose proof (extract_least_le _ _ _ _ H) as Hle.
  pose proof (extract_least_perm _ _ _ _ H) as Hp.
  rewrite Hp in Hle. by inversion Hle.
Qed.

Lemma fifo_get_nonempty q : q ≠ [] → is_Some (fifo_get q).
Proof. destruct q; [done|]. simpl. eauto. Qed.

Definition fifo_queue : PriorityQueue :=
  {| pq_put := fifo_put; pq_get := fifo_get;
     pq_put_perm := fifo_put_perm; pq_get_perm := fifo_get_perm;
     pq_get_least := fifo_get_least; pq_get_nonempty := fifo_get_nonempty |}.

(** * Heuristic evaluator *)

(** C1.  [manhattan_distance] does not compute the grid distance of the
    specification: its [n] is the shape [(9,)] of the position array, not
    the side 3, so every column is the flat index and every row is 0.  With
    the blank one row below its goal cell the grid distance is 2 and the
    function returns 6. *)
Theorem manhattan_distance_is_flat_index_distance :
  manhattan_distance [3; 1; 2; 0; 4; 5; 6; 7; 8] canonical_goal = Some 6%Z
  ∧ grid_distance [3; 1; 2; 0; 4; 5; 6; 7; 8] canonical_goal = 2%Z
  ∧ is_state [3; 1; 2; 0; 4; 5; 6; 7; 8] ∧ is_state canonical_goal.
Proof.
  split; [reflexivity|]. split; [reflexivity|].
  split; apply (bool_decide_unpack _); by vm_compute.
Qed.

(** * Metrics *)

(** C9.  The quotient for a positive [expanded_nodes]; a zero
    [expanded_nodes] is not guarded and raises. *)
Theorem calculate_branching_factor_quotient (visited expanded : Q) :
  (0 < expanded)%Q →
  calculate_branching_factor visited expanded = Some ((visited - 1) / expanded)%Q
  ∧ calculate_branching_factor visited 0 = None.
Proof.
  intros Hpos. split; [|reflexivity].
  unfold calculate_branching_factor.
  destruct (Qeq_bool expanded 0) eqn:E; [|done].
  apply Qeq_bool_iff in E. rewrite E in Hpos. by apply Qlt_irrefl in Hpos.
Qed.

Lemma calculate_branching_factor_quotient_witness :
  (0 < 3)%Q
  ∧ calculate_branching_factor 10 3 = Some ((10 - 1) / 3)%Q
  ∧ calculate_branching_factor 10 0 = None.
Proof.
  split; [reflexivity|].
  apply (calculate_branching_factor_quotient 10 3). reflexivity.
Defined.

(** C9, as stated: the call with [expanded_nodes = 0] raises. *)
Lemma calculate_branching_factor_zero_raises :
  calculate_branching_factor 1 0 = None.
Proof. reflexivity. Qed.

(** Induction on trees, with the hypothesis for every child. *)
Fixpoint Tree_rect' (P : Tree → Prop)
    (IH : ∀ n kids, Forall P kids → P (TNode n kids)) (t : Tree) : P t :=
  let 'TNode n kids := t in
  IH n kids ((fix go (l : list Tree) : Forall P l :=
                match l with
                | [] => Forall_nil_2 P
                | k :: l' => Forall_cons_2 P k l' (Tree_rect' P IH k) (go l')
                end) kids).

Lemma nodes_with_children_unfold n kids :
  nodes_with_children (TNode n kids)
  = (match kids with [] => 0 | _ => 1 end) + sum_list (nodes_with_children <$> kids).
Proof. reflexivity. Qed.

Lemma expanded_fold_shift (kids : list Tree) (acc : nat) :
  Forall (λ k, expanded_nodes_recursion k
               = sum_list (nodes_with_children <$> tree_kids k)) kids →
  foldl (λ expanded_nodes child,
           match tree_kids child with
           | [] => expanded_nodes
           | _ => expanded_nodes + (expanded_nodes_recursion child + 1)
           end) acc kids
  = acc + sum_list (nodes_with_children <$> kids).
Proof.
  intros H. revert acc. induction H as [|k kids Hk _ IH]; intros acc.
  - simpl. lia.
  - rewrite fmap_cons. cbn [foldl sum_list_with]. rewrite IH.
    destruct k as [n ks]. cbn [tree_kids] in *. rewrite nodes_with_children_unfold.
    destruct ks as [|k1 ks].
    + rewrite fmap_nil. cbn [sum_list_with]. unfold id. lia.
    + rewrite Hk. unfold id. lia.
Qed.

(** The recursion counts the proper descendants that have children. *)
Lemma expanded_nodes_recursion_count (t : Tree) :
  expanded_nodes_recursion t = sum_list (nodes_with_children <$> tree_kids t).
Proof.
  induction t as [n kids IH] using Tree_rect'.
  cbn [expanded_nodes_recursion tree_kids]. by rewrite expanded_fold_shift.
Qed.

(** The root is counted whether or not it has children. *)
Lemma calculate_expanded_nodes_count (root : Tree) :
  calculate_expanded_nodes root
  = nodes_with_children root
    + match tree_kids root with [] => 1 | _ => 0 end.
Proof.
  unfold calculate_expanded_nodes. rewrite expanded_nodes_recursion_count.
  destruct root as [n kids]. rewrite nodes_with_children_unfold.
  cbn [tree_kids]. destruct kids; lia.
Qed.

(** C6.  The run whose start is already the goal returns a root without
    children: no node of its tree has a child, and
    [calculate_expanded_nodes] answers 1. *)
Theorem calculate_expanded_nodes_childless_root :
  ∃ σ root,
    a_star fifo_queue canonical_goal [manhattan_distance; hamming_distance]
           [1%Q; 0%Q] 1 canonical_goal = Some (σ, Found 0 0)
    ∧ tree_of (length (nodes σ)) (nodes σ) 0 = Some root
    ∧ tree_kids root = []
    ∧ nodes_with_children root = 0
    ∧ calculate_expanded_nodes root = 1.
Proof.
  do 2 eexists. do 4 (split; [vm_compute; reflexivity|]). vm_compute; reflexivity.
Qed.

(** * Entry points *)

(** C3.  The gate of [solve] tests the module-level [initial_state], not
    its parameter: run as a script, a call with an unsolvable [start] goes
    on to the search; imported, the name is unbound and the call raises. *)
Theorem solve_gate_reads_global (pq : PriorityQueue) (fuel : nat)
    (goal : list nat) (heuristics : list Heuristic) (weights : list Q) :
  is_solvable [2; 1; 0; 3; 4; 5; 6; 7; 8] = Some false
  ∧ solve (Some [2; 4; 0; 5; 6; 1; 8; 7; 3]) pq fuel
          [2; 1; 0; 3; 4; 5; 6; 7; 8] goal heuristics weights
    = solve_search (a_star pq goal heuristics weights fuel
                           [2; 1; 0; 3; 4; 5; 6; 7; 8])
  ∧ solve None pq fuel [2; 1; 0; 3; 4; 5; 6; 7; 8] goal heuristics weights
    = SolveNameError.
Proof. split; [reflexivity|]. split; reflexivity. Qed.

(** C4.  One move from the goal: the solution has depth 1 and the run
    expands one node, yet the record holds the root node under
    ['expanded_nodes'] and 0 under ['depth']. *)
Theorem start_run_record_holds_nodes :
  let start := [1; 0; 2; 3; 4; 5; 6; 7; 8] in
  let weights := [1%Q; 0%Q] in
  start_run fifo_queue 10 start weights canonical_goal
  = Some (mkRun start weights (PyNode 0) 0)
  ∧ ∃ σ current path root,
      a_star fifo_queue canonical_goal [manhattan_distance; hamming_distance]
             weights 10 start = Some (σ, Found current 0)
      ∧ reconstruct_path (length (nodes σ)) (nodes σ) current = Some path
      ∧ (Z.of_nat (length path) - 1 = 1)%Z
      ∧ tree_of (length (nodes σ)) (nodes σ) 0 = Some root
      ∧ calculate_expanded_nodes root = 1.
Proof.
  intros start weights. split; [vm_compute; reflexivity|]. do 4 eexists.
  do 4 (split; [vm_compute; reflexivity|]). vm_compute; reflexivity.
Qed.

(** * States and the neighbour generator *)

Lemma is_state_length p : is_state p → length p = 9.
Proof. unfold is_state. intros H. by rewrite H. Qed.

Lemma is_state_NoDup p : is_state p → NoDup p.
Proof. unfold is_state. intros H. rewrite H. apply NoDup_seq. Qed.

Lemma is_state_elem p v : is_state p → v ∈ p ↔ v < 9.
Proof. unfold is_state. intros H. rewrite H, elem_of_seq. lia. Qed.

Lemma is_state_reshape p : is_state p → np_reshape33 p = Some p.
Proof.
  intros H%is_state_length. unfold np_reshape33. by rewrite decide_True.
Qed.

(** A state has exactly one blank, and [where_blank] finds it. *)
Lemma is_state_blank p :
  is_state p →
  ∃ row col, where_blank p = Some (row, col) ∧ row < 3 ∧ col < 3
             ∧ p !! cell row col = Some 0.
Proof.
  intros Hp.
  assert (0 ∈ p) as Hin by (apply is_state_elem; [done|lia]).
  destruct (list_find_elem_of (λ v, v = 0) p 0 Hin eq_refl) as [[b v] Hb].
  pose proof Hb as Hb'. apply list_find_Some in Hb' as (Hl & -> & _).
  pose proof (lookup_lt_Some _ _ _ Hl) as Hlt.
  rewrite (is_state_length _ Hp) in Hlt.
  assert (b `div` 3 < 3) by (apply Nat.Div0.div_lt_upper_bound; lia).
  assert (b `mod` 3 < 3) by (apply Nat.mod_upper_bound; lia).
  assert (cell (b `div` 3) (b `mod` 3) = b) as Hcell
    by (unfold cell; symmetry; apply Nat.div_mod_eq).
  exists (b `div` 3), (b `mod` 3). unfold where_blank. rewrite Hb, Hcell.
  done.
Qed.

Lemma swap_cells_length i j p : length (swap_cells i j p) = length p.
Proof. unfold swap_cells. by rewrite !length_insert. Qed.

Lemma swap_cells_perm i j p :
  i < length p → j < length p → swap_cells i j p ≡ₚ p.
Proof.
  intros Hi Hj. unfold swap_cells.
  apply Permutation_insert_swap; by apply list_lookup_lookup_total_lt.
Qed.

Lemma swap_cells_state i j p :
  is_state p → i < 9 → j < 9 → is_state (swap_cells i j p).
Proof.
  intros Hp Hi Hj. unfold is_state.
  rewrite swap_cells_perm; [done|by rewrite (is_state_length _ Hp)..].
Qed.

Lemma swap_cells_lookup i j p k :
  i < length p → j < length p →
  swap_cells i j p !! k
  = if decide (k = i) then p !! j else if decide (k = j) then p !! i else p !! k.
Proof.
  intros Hi Hj. unfold swap_cells.
  destruct (decide (k = i)) as [->|Hki].
  - rewrite list_lookup_insert_eq by (by rewrite length_insert).
    symmetry. by apply list_lookup_lookup_total_lt.
  - rewrite list_lookup_insert_ne by done.
    destruct (decide (k = j)) as [->|Hkj].
    + rewrite list_lookup_insert_eq by done.
      symmetry. by apply list_lookup_lookup_total_lt.
    + by rewrite list_lookup_insert_ne.
Qed.

(** In a list without repetition, a swap of two distinct cells changes
    these two cells and no other. *)
Lemma swap_cells_changes i j p k :
  NoDup p → i < length p → j < length p → i ≠ j →
  swap_cells i j p !! k ≠ p !! k ↔ k = i ∨ k = j.
Proof.
  intros Hnd Hi Hj Hij. rewrite swap_cells_lookup by done.
  destruct (lookup_lt_is_Some_2 _ _ Hi) as [x Hx].
  destruct (lookup_lt_is_Some_2 _ _ Hj) as [y Hy].
  assert (x ≠ y) as Hxy.
  { intros ->. apply Hij. eapply NoDup_lookup; eauto. }
  repeat case_decide; subst; rewrite ?Hx, ?Hy; split; intros Hk;
    try tauto; congruence.
Qed.

(** Sliding the blank is a swap of the blank's cell with the target. *)
Lemma slide_swap p row col row' col' :
  p !! cell row col = Some 0 →
  cell row col ≠ cell row' col' →
  slide p row col row' col' = swap_cells (cell row col) (cell row' col') p.
Proof.
  intros Hb Hne. unfold slide, swap_cells.
  rewrite (list_lookup_total_correct _ _ _ Hb).
  by rewrite list_insert_insert_ne.
Qed.

Lemma in_bounds_up row col : in_bounds "up" row col ↔ row ≠ 0.
Proof. unfold in_bounds. intuition congruence. Qed.
Lemma in_bounds_down row col : in_bounds "down" row col ↔ row ≠ 2.
Proof. unfold in_bounds. intuition congruence. Qed.
Lemma in_bounds_left row col : in_bounds "left" row col ↔ col ≠ 0.
Proof. unfold in_bounds. intuition congruence. Qed.
Lemma in_bounds_right row col : in_bounds "right" row col ↔ col ≠ 2.
Proof. unfold in_bounds. intuition congruence. Qed.

(** What [get_neighbors] returns for a state, one clause per direction. *)
Lemma get_neighbors_state (pid : nat) (node : Node) :
  is_state (puzzle node) →
  ∃ row col,
    where_blank (puzzle node) = Some (row, col) ∧ row < 3 ∧ col < 3
    ∧ puzzle node !! cell row col = Some 0
    ∧ get_neighbors pid node
      = Some (flat_map
                (λ d, if decide (in_bounds d row col ∧ name node ≠ reverse_move d)
                      then [Node_init d
                              (swap_cells (cell row col) (moved_cell d row col)
                                          (puzzle node))
                              (Some pid) [] 0]
                      else [])
                directions).
Proof.
  intros Hp. destruct (is_state_blank _ Hp) as (row & col & Hw & Hr & Hc & Hb).
  exists row, col. do 4 (split; [done|]).
  unfold get_neighbors. rewrite (is_state_reshape _ Hp).
  cbn [mbind option_bind]. rewrite Hw.
  cbn [mbind option_bind directions flat_map].
  assert (∀ r' c', cell row col ≠ cell r' c' →
            slide (puzzle node) row col r' c'
            = swap_cells (cell row col) (cell r' c') (puzzle node)) as Hs
    by (intros; by apply slide_swap).
  f_equal.
  rewrite (decide_ext (row ≠ 0 ∧ name node ≠ "down")
             (in_bounds "up" row col ∧ name node ≠ reverse_move "up"))
    by (by rewrite in_bounds_up).
  rewrite (decide_ext (row ≠ 3 - 1 ∧ name node ≠ "up")
             (in_bounds "down" row col ∧ name node ≠ reverse_move "down"))
    by (by rewrite in_bounds_down).
  rewrite (decide_ext (col ≠ 0 ∧ name node ≠ "right")
             (in_bounds "left" row col ∧ name node ≠ reverse_move "left"))
    by (by rewrite in_bounds_left).
  rewrite (decide_ext (col ≠ 3 - 1 ∧ name node ≠ "left")
             (in_bounds "right" row col ∧ name node ≠ reverse_move "right"))
    by (by rewrite in_bounds_right).
  change (moved_cell "up" row col) with (cell (row - 1) col).
  change (moved_cell "down" row col) with (cell (row + 1) col).
  change (moved_cell "left" row col) with (cell row (col - 1)).
  change (moved_cell "right" row col) with (cell row (col + 1)).
  repeat case_decide;
    repeat match goal with
      | H : in_bounds _ _ _ ∧ _ |- _ => destruct H as [H _]
      | H : in_bounds "up" _ _ |- _ => apply in_bounds_up in H
      | H : in_bounds "down" _ _ |- _ => apply in_bounds_down in H
      | H : in_bounds "left" _ _ |- _ => apply in_bounds_left in H
      | H : in_bounds "right" _ _ |- _ => apply in_bounds_right in H
      end;
    rewrite ?Hs by (unfold cell; lia); reflexivity.
Qed.

Section candidates.
Context (C : string → Prop) `{!∀ d, Decision (C d)} (mk : string → Node).
Hypothesis mk_name : ∀ d, name (mk d) = d.

Let candidates : list Node :=
  flat_map (λ d, if decide (C d) then [mk d] else []) directions.

Lemma candidates_names : name <$> candidates = filter C directions.
Proof using mk_name.
  unfold candidates, directions. cbn [flat_map].
  rewrite !filter_cons, filter_nil.
  repeat case_decide; cbn [app fmap list_fmap]; by rewrite ?mk_name.
Qed.

Lemma candidates_elem n : n ∈ candidates ↔ ∃ d, d ∈ directions ∧ C d ∧ n = mk d.
Proof.
  unfold candidates. rewrite list_elem_of_In, in_flat_map. split.
  - intros (d & Hd%list_elem_of_In & Hn). exists d. split; [done|].
    case_decide; [|by destruct Hn]. destruct Hn as [<-|[]]. done.
  - intros (d & Hd & HC & ->). exists d. split; [by apply list_elem_of_In|].
    rewrite decide_True by done. by left.
Qed.
End candidates.

Lemma reverse_move_involutive d nm :
  d ∈ directions → nm ≠ reverse_move d → d ≠ reverse_move nm.
Proof.
  unfold directions. rewrite !elem_of_cons, elem_of_nil.
  intros [->|[->|[->|[->|[]]]]] Hnm; unfold reverse_move in *;
    repeat case_decide; subst; cbn in *; congruence.
Qed.

(** C7.  For a node holding a state, [get_neighbors] returns at most four
    nodes with distinct direction names, each with [parent] the node, no
    children, and the puzzle obtained by moving the blank in the direction
    of its name; a direction is among the names iff it keeps the blank on
    the board and the node's own name is not its reverse; for the root
    every direction that stays on the board is there; and no neighbour is
    named by the reverse of the node's name. *)
Theorem get_neighbors_directions (pid : nat) (node : Node) :
  is_state (puzzle node) →
  ∃ nbs row col,
    get_neighbors pid node = Some nbs
    ∧ row < 3 ∧ col < 3 ∧ puzzle node !! cell row col = Some 0
    ∧ length nbs ≤ 4
    ∧ NoDup (name <$> nbs)
    ∧ Forall (λ n, parent n = Some pid ∧ children n = []
                   ∧ name n ∈ directions
                   ∧ puzzle n = swap_cells (cell row col)
                                           (moved_cell (name n) row col)
                                           (puzzle node)
                   ∧ name n ≠ reverse_move (name node)) nbs
    ∧ (∀ d, d ∈ directions →
         d ∈ name <$> nbs ↔ in_bounds d row col ∧ name node ≠ reverse_move d)
    ∧ (name node = "root" →
       ∀ d, d ∈ directions → d ∈ name <$> nbs ↔ in_bounds d row col).
Proof.
  intros Hp.
  destruct (get_neighbors_state pid node Hp) as (row & col & _ & Hr & Hc & Hb & Hg).
  set (C := λ d, in_bounds d row col ∧ name node ≠ reverse_move d).
  set (mk := λ d, Node_init d (swap_cells (cell row col) (moved_cell d row col)
                                          (puzzle node)) (Some pid) [] 0).
  assert (∀ d, name (mk d) = d) as Hmk by done.
  pose proof (candidates_names C mk Hmk) as Hnames.
  pose proof (candidates_elem C mk) as Helem.
  cbv zeta in Hnames, Helem.
  exists (flat_map (λ d, if decide (C d) then [mk d] else []) directions), row, col.
  split; [exact Hg|]. do 3 (split; [done|]).
  split.
  { erewrite <- length_fmap, Hnames. etrans; [apply length_filter|]. done. }
  split.
  { rewrite Hnames. apply NoDup_filter.
    apply (bool_decide_unpack _). by vm_compute. }
  split.
  { apply Forall_forall. intros n (d & Hd & [HC1 HC2] & ->)%Helem.
    cbn [mk Node_init name parent children puzzle].
    repeat split; try done. by apply reverse_move_involutive. }
  split.
  { intros d Hd. rewrite Hnames, list_elem_of_filter. unfold C. tauto. }
  intros Hroot d Hd. rewrite Hnames, list_elem_of_filter. unfold C.
  rewrite Hroot. split; [tauto|]. intros Hin. repeat split; try done.
  revert Hd. unfold directions. rewrite !elem_of_cons, elem_of_nil.
  intros [->|[->|[->|[->|[]]]]]; by vm_compute.
Qed.

Lemma get_neighbors_directions_witness :
  ∃ nbs row col,
    get_neighbors 0 (Node_init "up" [1; 4; 2; 3; 0; 5; 6; 7; 8] None [] 0)
    = Some nbs
    ∧ row < 3 ∧ col < 3 ∧ [1; 4; 2; 3; 0; 5; 6; 7; 8] !! cell row col = Some 0
    ∧ length nbs ≤ 4
    ∧ NoDup (name <$> nbs)
    ∧ Forall (λ n, parent n = Some 0 ∧ children n = []
                   ∧ name n ∈ directions
                   ∧ puzzle n = swap_cells (cell row col)
                                           (moved_cell (name n) row col)
                                           [1; 4; 2; 3; 0; 5; 6; 7; 8]
                   ∧ name n ≠ reverse_move "up") nbs
    ∧ (∀ d, d ∈ directions →
         d ∈ name <$> nbs ↔ in_bounds d row col ∧ "up" ≠ reverse_move d)
    ∧ ("up" = "root" →
       ∀ d, d ∈ directions → d ∈ name <$> nbs ↔ in_bounds d row col).
Proof.
  apply (get_neighbors_directions 0
           (Node_init "up" [1; 4; 2; 3; 0; 5; 6; 7; 8] None [] 0)).
  apply (bool_decide_unpack _). by vm_compute.
Defined.

(** A move that stays on the board reaches a cell next to the blank. *)
Lemma moved_cell_adjacent d row col :
  row < 3 → col < 3 → d ∈ directions → in_bounds d row col →
  adjacent (cell row col) (moved_cell d row col)
  ∧ cell row col ≠ moved_cell d row col.
Proof.
  intros Hr Hc Hd Hin. revert Hd Hin. unfold directions.
  rewrite !elem_of_cons, elem_of_nil.
  intros [->|[->|[->|[->|[]]]]];
    [intros ?%in_bounds_up | intros ?%in_bounds_down
     | intros ?%in_bounds_left | intros ?%in_bounds_right];
    destruct row as [|[|[|?]]]; try lia; destruct col as [|[|[|?]]]; try lia;
    vm_compute; lia.
Qed.

(** C10.  Every neighbour of a state is a state again, and its puzzle is
    the parent's with two cells exchanged, the blank's and one that shares
    an edge with it; no other cell differs. *)
Theorem get_neighbors_swap_adjacent (pid : nat) (node : Node) :
  is_state (puzzle node) →
  ∃ nbs b,
    get_neighbors pid node = Some nbs
    ∧ puzzle node !! b = Some 0
    ∧ Forall (λ n, is_state (puzzle n)
                   ∧ ∃ c, adjacent b c
                          ∧ puzzle n !! b = puzzle node !! c
                          ∧ puzzle n !! c = puzzle node !! b
                          ∧ ∀ i, puzzle n !! i ≠ puzzle node !! i ↔ i = b ∨ i = c)
             nbs.
Proof.
  intros Hp.
  destruct (get_neighbors_state pid node Hp) as (row & col & _ & Hr & Hc & Hb & Hg).
  eexists _, (cell row col). split; [exact Hg|]. split; [done|].
  apply Forall_forall. intros n Hn.
  apply (candidates_elem _ (λ d, Node_init d _ (Some pid) [] 0)) in Hn
    as (d & Hd & [Hin _] & ->).
  cbn [Node_init puzzle].
  destruct (moved_cell_adjacent d row col Hr Hc Hd Hin) as [Hadj Hne].
  pose proof Hadj as (Hb9 & Hc9 & _).
  pose proof (is_state_length _ Hp) as Hlen.
  split; [by apply swap_cells_state|].
  exists (moved_cell d row col). split; [done|].
  rewrite !swap_cells_lookup by lia.
  rewrite decide_True by done. rewrite decide_False by done.
  rewrite decide_True by done. do 2 (split; [done|]).
  intros i. apply swap_cells_changes; [by apply is_state_NoDup|lia..|done].
Qed.

Lemma get_neighbors_swap_adjacent_witness :
  ∃ nbs b,
    get_neighbors 0 (Node_init "root" [1; 0; 2; 3; 4; 5; 6; 7; 8] None [] 0)
    = Some nbs
    ∧ [1; 0; 2; 3; 4; 5; 6; 7; 8] !! b = Some 0
    ∧ Forall (λ n, is_state (puzzle n)
                   ∧ ∃ c, adjacent b c
                          ∧ puzzle n !! b = [1; 0; 2; 3; 4; 5; 6; 7; 8] !! c
                          ∧ puzzle n !! c = [1; 0; 2; 3; 4; 5; 6; 7; 8] !! b
                          ∧ ∀ i, puzzle n !! i ≠ [1; 0; 2; 3; 4; 5; 6; 7; 8] !! i
                                 ↔ i = b ∨ i = c)
             nbs.
Proof.
  apply (get_neighbors_swap_adjacent 0
           (Node_init "root" [1; 0; 2; 3; 4; 5; 6; 7; 8] None [] 0)).
  apply (bool_decide_unpack _). by vm_compute.
Defined.

(** * Solvability *)

(** Remainders by 2, handed to [lia] through the division equation. *)
Ltac solve_mod2 :=
  repeat match goal with
    | |- context [?n `mod` 2] =>
        let q := fresh "q" in let r := fresh "r" in
        pose proof (Nat.div_mod_eq n 2);
        pose proof (Nat.mod_upper_bound n 2 ltac:(lia));
        set (q := n `div` 2) in *; set (r := n `mod` 2) in *;
        clearbody q r
    | H : context [?n `mod` 2] |- _ =>
        let q := fresh "q" in let r := fresh "r" in
        pose proof (Nat.div_mod_eq n 2);
        pose proof (Nat.mod_upper_bound n 2 ltac:(lia));
        set (q := n `div` 2) in *; set (r := n `mod` 2) in *;
        clearbody q r
    end;
  lia.

Lemma inversions_by_index (k : list nat) :
  sum_list ((λ i, length (filter (λ w, w < k !!! i) (drop (i + 1) k)))
              <$> seq 0 (length k))
  = inversions k.
Proof.
  induction k as [|x k IH]; [done|].
  cbn [length seq inversions]. rewrite fmap_cons. cbn [sum_list_with].
  rewrite <- fmap_S_seq, <- list_fmap_compose, <- IH. unfold id. f_equal.
Qed.

Lemma inversions_by_index_but_last (k : list nat) :
  sum_list ((λ i, length (filter (λ w, w < k !!! i) (drop (i + 1) k)))
              <$> seq 0 (length k - 1))
  = inversions k.
Proof.
  rewrite <- inversions_by_index.
  destruct (length k) as [|m] eqn:E; [done|].
  replace (S m - 1) with m by lia.
  rewrite seq_S, fmap_app, sum_list_with_app. cbn [fmap list_fmap sum_list_with].
  rewrite drop_ge by lia. cbn. lia.
Qed.

Lemma is_solvable_inversions (start : list nat) :
  length start = 9 →
  is_solvable start
  = Some (bool_decide (inversions (filter (λ v, v ≠ 0) start) `mod` 2 = 0)).
Proof.
  intros Hlen. unfold is_solvable, np_reshape33. rewrite decide_True by done.
  cbn [mbind option_bind]. by rewrite inversions_by_index_but_last.
Qed.

Lemma inversions_app (a l : list nat) :
  inversions (a ++ l) = inversions a + cross_inversions a l + inversions l.
Proof.
  unfold cross_inversions. induction a as [|x a IH]; [done|].
  cbn [app inversions]. rewrite fmap_cons. cbn [sum_list_with].
  rewrite IH, filter_app, length_app. unfold id. lia.
Qed.

Lemma cross_inversions_perm (a l l' : list nat) :
  l ≡ₚ l' → cross_inversions a l = cross_inversions a l'.
Proof.
  intros Hl. unfold cross_inversions. induction a as [|x a IH]; [done|].
  rewrite !fmap_cons. cbn [sum_list_with]. by rewrite IH, Hl.
Qed.

Lemma cross_inversions_cons (a : list nat) (y : nat) (l : list nat) :
  cross_inversions a (y :: l)
  = length (filter (λ w, y < w) a) + cross_inversions a l.
Proof.
  unfold cross_inversions. induction a as [|x a IH]; [done|].
  rewrite !fmap_cons. cbn [sum_list_with]. rewrite IH. unfold id.
  rewrite !filter_cons. repeat case_decide; cbn [length]; lia.
Qed.

Lemma below_above_length (x : nat) (l : list nat) :
  x ∉ l →
  length (filter (λ w, w < x) l) + length (filter (λ w, x < w) l) = length l.
Proof.
  induction l as [|z l IH]; [done|].
  rewrite not_elem_of_cons. intros [Hz Hl]. specialize (IH Hl).
  rewrite !filter_cons. repeat case_decide; cbn [length]; lia.
Qed.

(** Exchanging two distinct values that do not occur between them changes
    the number of inversions by an odd amount. *)
Lemma inversions_exchange (a b c : list nat) (x y : nat) :
  x ≠ y → x ∉ b → y ∉ b →
  (inversions (a ++ x :: b ++ y :: c) + inversions (a ++ y :: b ++ x :: c))
    `mod` 2 = 1.
Proof.
  intros Hxy Hx Hy.
  rewrite !inversions_app.
  rewrite (cross_inversions_perm a (y :: b ++ x :: c) (x :: b ++ y :: c)).
  2:{ rewrite <- !Permutation_middle. apply Permutation_swap. }
  cbn [inversions]. rewrite !inversions_app. cbn [inversions].
  rewrite !filter_app, !filter_cons, !length_app, !cross_inversions_cons.
  pose proof (below_above_length x b Hx).
  pose proof (below_above_length y b Hy).
  destruct (decide (y < x)); destruct (decide (x < y)); try lia; cbn [length];
    solve_mod2.
Qed.

Lemma swap_cells_comm i j p : swap_cells i j p = swap_cells j i p.
Proof.
  unfold swap_cells. destruct (decide (i = j)) as [->|Hij]; [done|].
  by rewrite list_insert_insert_ne.
Qed.

(** The list around two cells [i < j], before and after their exchange. *)
Lemma swap_cells_split (p : list nat) (i j : nat) :
  i < j → j < length p →
  ∃ a x b y c,
    p = a ++ x :: b ++ y :: c ∧ p !! i = Some x ∧ p !! j = Some y
    ∧ swap_cells i j p = a ++ y :: b ++ x :: c.
Proof.
  intros Hij Hj.
  destruct (lookup_lt_is_Some_2 p i ltac:(lia)) as [x Hx].
  destruct (lookup_lt_is_Some_2 p j Hj) as [y Hy].
  pose proof Hx as Hx'. pose proof Hy as Hy'.
  apply list_elem_of_split_length in Hx as (a & r & -> & ->).
  rewrite lookup_app_r in Hy by lia.
  destruct (j - length a) as [|k] eqn:Ek; [lia|]. cbn in Hy.
  apply list_elem_of_split_length in Hy as (b & c & -> & ->).
  exists a, x, b, y, c. do 3 (split; [done|]).
  unfold swap_cells.
  rewrite (list_lookup_total_correct _ _ _ Hx'), (list_lookup_total_correct _ _ _ Hy').
  replace j with (length a + S (length b)) by lia.
  rewrite insert_app_r. cbn [insert list_insert].
  rewrite (insert_app_r_alt b) by lia. rewrite Nat.sub_diag. cbn [insert list_insert].
  rewrite (insert_app_r_alt a) by lia. rewrite Nat.sub_diag. done.
Qed.

Lemma swap_tiles_flips_parity_lt (p : list nat) (i j : nat) :
  is_state p → i < j → j < 9 → p !!! i ≠ 0 → p !!! j ≠ 0 →
  is_solvable (swap_cells i j p) = negb <$> is_solvable p.
Proof.
  intros Hp Hij Hj Hi0 Hj0.
  pose proof (is_state_length _ Hp) as Hlen.
  pose proof (is_state_NoDup _ Hp) as Hnd.
  rewrite !is_solvable_inversions by (by rewrite ?swap_cells_length).
  destruct (swap_cells_split p i j Hij ltac:(lia))
    as (a & x & b & y & c & Hsplit & Hx & Hy & ->).
  rewrite (list_lookup_total_correct _ _ _ Hx) in Hi0.
  rewrite (list_lookup_total_correct _ _ _ Hy) in Hj0.
  subst p. cbn [fmap option_fmap option_map]. f_equal.
  apply (NoDup_filter (λ v, v ≠ 0)) in Hnd.
  revert Hnd. rewrite !filter_app, !filter_cons, !filter_app, !filter_cons.
  rewrite !decide_True by done.
  set (fa := filter _ a). set (fb := filter _ b). set (fc := filter _ c).
  rewrite NoDup_app, NoDup_cons, not_elem_of_app, NoDup_app, not_elem_of_cons, NoDup_cons.
  intros (_ & _ & [Hxb [Hxy _]] & _ & Hyb & _).
  assert (y ∉ fb) as Hyb' by (intros ?; by eapply Hyb; [|left]).
  pose proof (inversions_exchange fa fb fc x y Hxy Hxb Hyb') as Hodd.
  repeat case_bool_decide; cbn [negb]; try done; exfalso; solve_mod2.
Qed.

Lemma swap_tiles_flips_parity (p : list nat) (i j : nat) :
  is_state p → i ≠ j → i < 9 → j < 9 → p !!! i ≠ 0 → p !!! j ≠ 0 →
  is_solvable (swap_cells i j p) = negb <$> is_solvable p.
Proof.
  intros Hp Hij Hi Hj Hi0 Hj0. destruct (decide (i < j)).
  - by apply swap_tiles_flips_parity_lt.
  - rewrite swap_cells_comm. apply swap_tiles_flips_parity_lt; [done|lia|done..].
Qed.

(** C8.  In a state with an even number of inversions, exchanging two
    non-blank tiles yields a state on which [is_solvable] answers the
    opposite. *)
Theorem swap_tiles_flips_solvable (p : list nat) (i j : nat) :
  is_state p → is_solvable p = Some true →
  i ≠ j → i < 9 → j < 9 → p !!! i ≠ 0 → p !!! j ≠ 0 →
  is_state (swap_cells i j p)
  ∧ is_solvable (swap_cells i j p) = negb <$> is_solvable p.
Proof.
  intros Hp _ Hij Hi Hj Hi0 Hj0. split.
  - by apply swap_cells_state.
  - by apply swap_tiles_flips_parity.
Qed.

Lemma swap_tiles_flips_solvable_witness :
  is_state (swap_cells 1 8 [2; 4; 0; 5; 6; 1; 8; 7; 3])
  ∧ is_solvable (swap_cells 1 8 [2; 4; 0; 5; 6; 1; 8; 7; 3])
    = negb <$> is_solvable [2; 4; 0; 5; 6; 1; 8; 7; 3].
Proof.
  apply (swap_tiles_flips_solvable [2; 4; 0; 5; 6; 1; 8; 7; 3] 1 8).
  - apply (bool_decide_unpack _). by vm_compute.
  - reflexivity.
  - lia.
  - lia.
  - lia.
  - vm_compute. lia.
  - vm_compute. lia.
Defined.

(** * The value of [manhattan_distance] on states *)

Lemma scatter_spec (idx : list nat) :
  ∀ (pos : list (option nat)) (k : nat),
    (∀ v, v ∈ idx → v < length pos) → NoDup idx →
    ∃ pos', scatter pos idx k = Some pos'
            ∧ length pos' = length pos
            ∧ (∀ i v, idx !! i = Some v → pos' !! v = Some (Some (k + i)))
            ∧ (∀ v, v ∉ idx → pos' !! v = pos !! v).
Proof.
  induction idx as [|v idx IH]; intros pos k Hlt Hnd.
  - exists pos. by repeat split.
  - apply NoDup_cons in Hnd as [Hv Hnd].
    assert (v < length pos) as Hvlt by (apply Hlt; by left).
    destruct (IH (<[v := Some k]> pos) (S k)) as (pos' & Hs & Hlen & Hin & Hout).
    { intros w Hw. rewrite length_insert. apply Hlt. by right. }
    { done. }
    exists pos'. cbn [scatter]. rewrite decide_True by done.
    split; [done|]. split; [by rewrite Hlen, length_insert|]. split.
    + intros [|i] w Hw; cbn in Hw.
      * injection Hw as <-. rewrite Hout by done.
        rewrite list_lookup_insert_eq by done. do 2 f_equal. lia.
      * rewrite (Hin i w Hw). do 2 f_equal. lia.
    + intros w [Hwv Hw]%not_elem_of_cons. rewrite Hout by done.
      by rewrite list_lookup_insert_ne.
Qed.

Lemma index_of_lookup (s : list nat) (i v : nat) :
  NoDup s → s !! i = Some v → index_of v s = i.
Proof.
  intros Hnd Hi. unfold index_of.
  destruct (list_find_elem_of (λ w, w = v) s v) as [[j w] Hj];
    [by eapply list_elem_of_lookup_2|done|].
  rewrite Hj. cbn. apply list_find_Some in Hj as (Hj & -> & _).
  eapply NoDup_lookup; eauto.
Qed.

Lemma index_of_lt (s : list nat) (v : nat) : length s = 9 → index_of v s < 9.
Proof.
  intros Hlen. unfold index_of.
  destruct (list_find (λ w, w = v) s) as [[j w]|] eqn:Hj; cbn; [|lia].
  apply list_find_Some in Hj as (Hj%lookup_lt_Some & _). lia.
Qed.

Lemma index_of_state (s : list nat) (v : nat) :
  is_state s → v < 9 → s !! index_of v s = Some v.
Proof.
  intros Hs Hv. apply (is_state_elem _ _ Hs) in Hv.
  apply list_elem_of_lookup in Hv as [i Hi].
  by rewrite (index_of_lookup s i v (is_state_NoDup _ Hs) Hi).
Qed.

Lemma np_read_fmap (f : nat → nat) (l : list nat) :
  np_read ((λ v, Some (f v)) <$> l) = Some ((λ v, Z.of_nat (f v)) <$> l).
Proof.
  unfold np_read. induction l as [|x l IH]; [done|].
  rewrite !fmap_cons. cbn [mapM]. rewrite IH. done.
Qed.

(** On a state the position array lists, value by value, the index of the
    value. *)
Lemma build_position_matrix_state (g : list nat) :
  is_state g →
  build_position_matrix g = Some ((λ v, Z.of_nat (index_of v g)) <$> seq 0 9).
Proof.
  intros Hg. unfold build_position_matrix.
  destruct (scatter_spec g (np_empty (3 * 3)) 0) as (pos & -> & Hlen & Hin & _).
  { intros v Hv%(is_state_elem _ _ Hg). unfold np_empty.
    rewrite length_replicate. exact Hv. }
  { by apply is_state_NoDup. }
  cbn [mbind option_bind]. rewrite <- np_read_fmap. f_equal.
  apply list_eq. intros v. rewrite list_lookup_fmap.
  destruct (decide (v < 9)) as [Hv|Hv].
  - rewrite lookup_seq_lt by done. cbn.
    by rewrite (Hin _ _ (index_of_state g v Hg Hv)).
  - rewrite lookup_seq_ge by lia. cbn. apply lookup_ge_None.
    rewrite Hlen. unfold np_empty. rewrite length_replicate. cbn. lia.
Qed.

Lemma flat_coordinates (a b : Z) :
  (0 ≤ a < 9)%Z → (0 ≤ b < 9)%Z →
  (Z.abs (a `mod` 9 - b `mod` 9) + Z.abs (a `div` 9 - b `div` 9))%Z
  = Z.abs (a - b).
Proof.
  intros Ha Hb. rewrite !Z.mod_small, !Z.div_small by lia. lia.
Qed.

(** With [n = 9] the two coordinates are the flat index and 0. *)
Lemma manhattan_distance_state (s g : list nat) :
  is_state s → is_state g →
  manhattan_distance s g = Some (flat_distance s g).
Proof.
  intros Hs Hg. unfold manhattan_distance.
  rewrite (is_state_reshape _ Hs). cbn [mbind option_bind].
  rewrite (is_state_reshape _ Hg). cbn [mbind option_bind].
  rewrite (build_position_matrix_state _ Hs). cbn [mbind option_bind].
  rewrite (build_position_matrix_state _ Hg). cbn [mbind option_bind].
  rewrite length_fmap, length_seq. unfold flat_distance. do 2 f_equal.
  rewrite <- !list_fmap_compose.
  rewrite !zip_with_fmap_l, !zip_with_fmap_r, !zip_with_diag.
  rewrite zip_with_fmap_l, zip_with_fmap_r, zip_with_diag.
  apply list_fmap_ext. intros i v _. cbn.
  pose proof (index_of_lt s v (is_state_length _ Hs)).
  pose proof (index_of_lt g v (is_state_length _ Hg)).
  apply flat_coordinates; lia.
Qed.

Global Instance np_sum_perm : Proper ((≡ₚ) ==> (=)) np_sum.
Proof.
  intros l l' H. unfold np_sum.
  induction H as [|x l l' _ IH|x y l|l l' l'' _ IH1 _ IH2]; cbn; lia.
Qed.

(** The same sum, cell by cell of the state instead of value by value. *)
Lemma flat_distance_by_cell (s g : list nat) :
  is_state s →
  flat_distance s g
  = np_sum ((λ i, Z.abs (Z.of_nat (index_of (s !!! i) g) - Z.of_nat i))
              <$> seq 0 9).
Proof.
  intros Hs. unfold flat_distance.
  pose proof Hs as Hperm. unfold is_state in Hperm. rewrite <- Hperm at 1.
  f_equal. apply list_eq. intros i. rewrite !list_lookup_fmap.
  pose proof (is_state_length _ Hs) as Hlen.
  destruct (decide (i < 9)) as [Hi|Hi].
  - rewrite lookup_seq_lt by done.
    destruct (lookup_lt_is_Some_2 s i ltac:(lia)) as [v Hv].
    rewrite Hv. cbn. rewrite (list_lookup_total_correct _ _ _ Hv).
    by rewrite (index_of_lookup s i v (is_state_NoDup _ Hs) Hv).
  - rewrite lookup_seq_ge by lia. by rewrite lookup_ge_None_2 by lia.
Qed.

(** One exchange of two adjacent cells moves the flat distance by at most
    6: two values, each by at most 3 cells. *)
Lemma flat_distance_swap (s g : list nat) (b c : nat) :
  is_state s → adjacent b c →
  (Z.abs (flat_distance (swap_cells b c s) g - flat_distance s g) ≤ 6)%Z.
Proof.
  intros Hs (Hb & Hc & Hadj).
  rewrite !flat_distance_by_cell by (done || by apply swap_cells_state).
  pose proof (is_state_length _ Hs) as Hlen.
  destruct s as [|s0 [|s1 [|s2 [|s3 [|s4 [|s5 [|s6 [|s7 [|s8 [|? ?]]]]]]]]]];
    try discriminate Hlen.
  clear Hs Hlen.
  destruct b as [|[|[|[|[|[|[|[|[|?]]]]]]]]]; try lia;
    destruct c as [|[|[|[|[|[|[|[|[|?]]]]]]]]]; try lia;
    cbn in Hadj; try lia; clear; cbn;
    repeat match goal with
      | |- context [Z.of_nat (index_of ?v g)] =>
          generalize (Z.of_nat (index_of v g)); intros ?
      end;
    lia.
Qed.

Lemma flat_distance_refl (s : list nat) : flat_distance s s = 0%Z.
Proof.
  unfold flat_distance. induction (seq 0 9) as [|v l IH]; [done|].
  rewrite fmap_cons. unfold np_sum in *. cbn [foldr]. rewrite IH. lia.
Qed.

(** A legal move exchanges the blank with a cell next to it. *)
Lemma legal_move_swap (s s' : list nat) :
  is_state s → legal_move s s' →
  ∃ b c, adjacent b c ∧ s' = swap_cells b c s.
Proof.
  intros Hs (nbs & n & Hg & Hn & <-).
  destruct (get_neighbors_state 0 (Node_init "root" s None [] 0) Hs)
    as (row & col & _ & Hr & Hc & _ & Hg').
  rewrite Hg' in Hg. apply (inj Some) in Hg. subst nbs.
  apply (candidates_elem _ (λ d, Node_init d _ (Some 0) [] 0)) in Hn
    as (d & Hd & [Hin _] & ->).
  exists (cell row col), (moved_cell d row col). split; [|done].
  by apply moved_cell_adjacent.
Qed.

Lemma legal_move_state (s s' : list nat) :
  is_state s → legal_move s s' → is_state s'.
Proof.
  intros Hs (b & c & (Hb & Hc & _) & ->)%legal_move_swap; [|done].
  by apply swap_cells_state.
Qed.

(** C5.  The value of [manhattan_distance] is at most six times the number
    of moves of any path from [start] to [goal], the shortest included. *)
Theorem manhattan_distance_six_per_move (k : nat) (start goal : list nat) :
  is_state start → is_state goal → moves k start goal →
  ∃ d, manhattan_distance start goal = Some d ∧ (d ≤ 6 * Z.of_nat k)%Z.
Proof.
  intros Hs Hg Hm. exists (flat_distance start goal).
  split; [by apply manhattan_distance_state|]. clear Hg.
  induction Hm as [s|k s s' g Hmove _ IH].
  - rewrite flat_distance_refl. lia.
  - pose proof (legal_move_state _ _ Hs Hmove) as Hs'.
    specialize (IH Hs').
    destruct (legal_move_swap _ _ Hs Hmove) as (b & c & Hadj & ->).
    pose proof (flat_distance_swap s g b c Hs Hadj). lia.
Qed.

Lemma one_move_to_goal : moves 1 [1; 0; 2; 3; 4; 5; 6; 7; 8] canonical_goal.
Proof.
  eapply moves_S; [|apply moves_O].
  eexists _, (Node_init "left" canonical_goal (Some 0) [] 0).
  split; [reflexivity|]. split; [|reflexivity].
  apply list_elem_of_In. right. by left.
Qed.

Lemma manhattan_distance_six_per_move_witness :
  ∃ d, manhattan_distance [1; 0; 2; 3; 4; 5; 6; 7; 8] canonical_goal = Some d
       ∧ (d ≤ 6 * Z.of_nat 1)%Z.
Proof.
  apply (manhattan_distance_six_per_move 1 [1; 0; 2; 3; 4; 5; 6; 7; 8]
                                         canonical_goal).
  - apply (bool_decide_unpack _). by vm_compute.
  - apply (bool_decide_unpack _). by vm_compute.
  - exact one_move_to_goal.
Defined.

(** C5, as stated: one move from the goal the function already answers 2,
    for the blank and the tile it displaced. *)
Lemma manhattan_distance_not_admissible :
  is_state [1; 0; 2; 3; 4; 5; 6; 7; 8] ∧ is_state canonical_goal
  ∧ moves 1 [1; 0; 2; 3; 4; 5; 6; 7; 8] canonical_goal
  ∧ manhattan_distance [1; 0; 2; 3; 4; 5; 6; 7; 8] canonical_goal = Some 2%Z
  ∧ ¬ (2 ≤ Z.of_nat 1)%Z.
Proof.
  split; [apply (bool_decide_unpack _); by vm_compute|].
  split; [apply (bool_decide_unpack _); by vm_compute|].
  split; [exact one_move_to_goal|]. split; [reflexivity|]. lia.
Qed.

(** * The frontier of the search loop *)

Lemma get_neighbors_children (pid : nat) (node : Node) (nbs : list Node) :
  get_neighbors pid node = Some nbs → Forall (λ n, children n = []) nbs.
Proof.
  unfold get_neighbors. destruct (np_reshape33 (puzzle node)) as [p|]; [|done].
  cbn [mbind option_bind]. destruct (where_blank p) as [[row col]|]; [|done].
  cbn [mbind option_bind]. intros [= <-].
  repeat case_decide; rewrite ?Forall_app; repeat split;
    repeat constructor.
Qed.

Section frontier.
Variable pq : PriorityQueue.
Variables (goal : list nat) (heuristics : list Heuristic) (weights : list Q).

Local Abbreviation EntryOk := (entry_ok goal heuristics weights).
Local Abbreviation FrontierOk := (frontier_ok goal heuristics weights).
Local Abbreviation SearchInv := (search_inv goal heuristics weights).

Lemma frontier_ok_store (σ : SearchState) (ns' : list Node) :
  FrontierOk σ → store_keeps (snd <$> open_set σ) (nodes σ) ns' →
  FrontierOk (mkState ns' (open_set σ) (g_score σ)).
Proof.
  intros (Hnd & Hok & Hsc) Hk. split; [done|]. split.
  - apply Forall_forall. intros e He.
    rewrite Forall_forall in Hok.
    destruct (Hok e He) as (nd & g & gmin & h & Hl & Hc & Hg & Hle & Hh & Hs).
    destruct (Hk e.2 nd) as (nd' & Hl' & Hp' & Hc'); [|done|].
    { apply list_elem_of_fmap. eauto. }
    exists nd', g, gmin, h. cbn [nodes g_score]. rewrite Hp', Hc'. done.
  - intros e1 e2 n1' n2' He1 He2 Hne Hl1 Hl2 Hp. cbn [nodes open_set] in *.
    rewrite Forall_forall in Hok.
    destruct (Hok e1 He1) as (n1 & _ & _ & _ & Hn1 & _).
    destruct (Hok e2 He2) as (n2 & _ & _ & _ & Hn2 & _).
    destruct (Hk e1.2 n1) as (? & ? & Hp1 & _); [|done|].
    { apply list_elem_of_fmap. eauto. }
    destruct (Hk e2.2 n2) as (? & ? & Hp2 & _); [|done|].
    { apply list_elem_of_fmap. eauto. }
    simplify_eq. eapply (Hsc e1 e2); eauto. congruence.
Qed.

Lemma store_keeps_alter (ids : list nat) (ns : list Node) (f : Node → Node) (k : nat) :
  k ∉ ids → store_keeps ids ns (alter f k ns).
Proof.
  intros Hk id nd Hid Hl. exists nd.
  rewrite list_lookup_alter_ne by (intros ->; done). done.
Qed.

Lemma store_keeps_app (ids : list nat) (ns new : list Node) :
  store_keeps ids ns (ns ++ new).
Proof.
  intros id nd _ Hl. exists nd. by rewrite (lookup_app_l_Some _ _ _ _ Hl).
Qed.

(** Taking an entry out. *)
Lemma frontier_ok_get (σ : SearchState) (e : Entry) (rest : list Entry) :
  FrontierOk σ → open_set σ ≡ₚ e :: rest →
  FrontierOk (mkState (nodes σ) rest (g_score σ))
  ∧ (e.2 ∉ snd <$> rest) ∧ EntryOk σ e.
Proof.
  intros (Hnd & Hok & Hsc) Hp.
  rewrite Hp in Hnd, Hok. rewrite fmap_cons in Hnd.
  apply NoDup_cons in Hnd as [Hne Hnd]. apply Forall_cons in Hok as [He Hok].
  split; [|done]. split; [done|]. split; [done|].
  intros e1 e2 n1 n2 He1 He2. cbn [nodes open_set] in *.
  apply Hsc; rewrite Hp; by right.
Qed.

(** Lowering (or setting) the best known cost of a puzzle. *)
Lemma frontier_ok_g_score (σ : SearchState) (p : list nat) (t : nat) :
  FrontierOk σ →
  match g_score σ !! p with Some old => t < old | None => True end →
  FrontierOk (mkState (nodes σ) (open_set σ) (<[p := t]> (g_score σ))).
Proof.
  intros (Hnd & Hok & Hsc) Hlt. split; [done|]. split; [|done].
  eapply Forall_impl; [exact Hok|].
  intros e (nd & g & gmin & h & Hl & Hc & Hg & Hle & Hh & Hs).
  unfold entry_ok. cbn [nodes g_score open_set].
  destruct (decide (puzzle nd = p)) as [<-|Hne].
  - rewrite Hg in Hlt. exists nd, g, t, h.
    rewrite lookup_insert_eq. repeat split; try done. lia.
  - exists nd, g, gmin, h. rewrite lookup_insert_ne by done. done.
Qed.

(** An entry for a strictly better cost differs in score from every entry
    of the same puzzle. *)
Lemma better_cost_new_score (σ : SearchState) (nd : Node) (t : nat) (h : Q) :
  FrontierOk σ →
  combine_heuristics (puzzle nd) goal heuristics weights = Some h →
  match g_score σ !! puzzle nd with Some old => t < old | None => True end →
  ∀ e n, e ∈ open_set σ → nodes σ !! e.2 = Some n → puzzle n = puzzle nd →
         ¬ (inject_Z (Z.of_nat t) + h == e.1)%Q.
Proof.
  intros (_ & Hok & _) Hh Hlt e n He Hn Hp Heq.
  rewrite Forall_forall in Hok.
  destruct (Hok e He) as (n' & g & gmin & h' & Hl & _ & Hg & Hle & Hh' & Hs).
  simplify_eq. rewrite Hp in *. simplify_eq. rewrite Hg in Hlt.
  rewrite Hs in Heq. apply Qplus_inj_r in Heq.
  unfold Qeq in Heq. cbn in Heq. lia.
Qed.

(** Putting a justified entry of a node that is not in the frontier. *)
Lemma frontier_ok_put (σ : SearchState) (e : Entry) :
  FrontierOk σ → e.2 ∉ (snd <$> open_set σ) → EntryOk σ e →
  (∀ e' n n', e' ∈ open_set σ → nodes σ !! e.2 = Some n →
              nodes σ !! e'.2 = Some n' → puzzle n' = puzzle n →
              ¬ (e.1 == e'.1)%Q) →
  FrontierOk (mkState (nodes σ) (pq_put pq e (open_set σ)) (g_score σ)).
Proof.
  intros (Hnd & Hok & Hsc) Hfresh He Hnew.
  pose proof (pq_put_perm pq e (open_set σ)) as Hp.
  split; [|split]; cbn [open_set nodes g_score].
  - rewrite Hp, fmap_cons. by apply NoDup_cons.
  - apply Forall_forall. intros e' He'. rewrite Hp in He'.
    rewrite Forall_forall in Hok.
    apply elem_of_cons in He' as [->|He']; [exact He|exact (Hok e' He')].
  - intros e1 e2 n1 n2. rewrite !Hp, !elem_of_cons.
    intros [->|He1] [->|He2] Hne Hl1 Hl2 Hpz; [done| | |].
    + by eapply Hnew.
    + intros Heq. eapply (Hnew e1); eauto. by symmetry.
    + by eapply Hsc.
Qed.

Lemma frontier_ok_empty (ns : list Node) (g : gmap (list nat) nat) :
  FrontierOk (mkState ns [] g).
Proof.
  split; [apply NoDup_nil_2|]. split; [apply Forall_nil_2|].
  intros e1 e2 n1 n2 He1. by apply elem_of_nil in He1.
Qed.

Lemma search_inv_init (start : list nat) :
  SearchInv (a_star_init pq goal heuristics weights start).
Proof.
  unfold a_star_init.
  change (puzzle (Node_init "root" start None [] 0)) with start.
  assert (({[start := 0]} : gmap (list nat) nat) !! start = Some 0) as Hg0
    by apply lookup_singleton_eq.
  set (g := {[start := 0]} : gmap (list nat) nat) in *. clearbody g.
  destruct (combine_heuristics start goal heuristics weights) as [h|] eqn:Hh.
  - unfold search_inv.
    apply (frontier_ok_put (mkState _ [] _) (_, 0));
      [apply frontier_ok_empty|apply not_elem_of_nil| |].
    + eexists _, 0, 0, h. split; [reflexivity|]. split; [reflexivity|].
      split; [exact Hg0|]. split; [lia|].
      split; [exact Hh|reflexivity].
    + intros e' n n' He'. by apply elem_of_nil in He'.
  - split; [apply frontier_ok_empty|done].
Qed.

Lemma search_inv_loop_step (σ : SearchState) :
  FrontierOk σ → SearchInv (loop_step pq goal σ).
Proof.
  intros Hok. unfold loop_step.
  destruct (open_set σ) as [|e0 q0] eqn:Hq; [by split|]. rewrite <- Hq. clear Hq.
  destruct (pq_get pq (open_set σ)) as [[[sc current] rest]|] eqn:Hget;
    [|by split].
  apply pq_get_perm in Hget.
  destruct (frontier_ok_get σ _ _ Hok Hget)
    as (Hok1 & Hfresh & (nd & _ & _ & _ & Hnd & Hch & _)).
  cbn [nodes snd] in *. rewrite Hnd.
  destruct (decide (puzzle nd = goal)); [split; [done|by exists nd]|].
  destruct (get_neighbors current nd) as [nbs|] eqn:Hnbs; [|by split].
  cbn [search_inv open_set nodes].
  split; [|split; [done|split; [apply NoDup_seq|]]].
  { apply (frontier_ok_store (mkState _ rest _)); [done|]. apply store_keeps_app. }
  intros id [Hge Hlt]%elem_of_seq.
  pose proof (lookup_lt_Some _ _ _ Hnd) as Hcur.
  split; [lia|]. split.
  - intros (e & -> & He)%list_elem_of_fmap.
    destruct Hok1 as (_ & Hall & _). rewrite Forall_forall in Hall.
    destruct (Hall e He) as (n' & _ & _ & _ & Hn'%lookup_lt_Some & _).
    cbn [nodes] in Hn'. lia.
  - destruct (lookup_lt_is_Some_2 nbs (id - length (nodes σ)) ltac:(lia))
      as [n' Hn'].
    exists n'. rewrite lookup_app_r by lia. split; [done|].
    apply get_neighbors_children in Hnbs.
    by eapply (proj1 (Forall_lookup _ _) Hnbs).
Qed.

Lemma search_inv_for_step (σ : SearchState) (current nb : nat) (rest : list nat) :
  SearchInv (ForEach σ current (nb :: rest)) →
  SearchInv (for_step pq goal heuristics weights σ current nb rest).
Proof.
  intros (Hok & Hcur & Hnd & Hpend).
  apply NoDup_cons in Hnd as [Hnb_rest Hnd].
  destruct (Hpend nb) as (Hnb_cur & Hnb_fresh & ndnb & Hl_nb & Hch_nb); [by left|].
  unfold for_step. cbn [nodes open_set g_score].
  set (ns_a := alter (append_child nb) current (nodes σ)).
  assert (FrontierOk (mkState ns_a (open_set σ) (g_score σ))) as Hok_a.
  { apply (frontier_ok_store σ); [done|]. by apply store_keeps_alter. }
  assert (ns_a !! nb = Some ndnb) as Hl_nb_a.
  { unfold ns_a. by rewrite list_lookup_alter_ne. }
  assert (∀ (ns' : list Node) (q' : list Entry),
            (∀ id, id ∈ rest → ns' !! id = ns_a !! id) →
            (∀ id, id ∈ rest → id ∉ snd <$> q') →
            ∀ id, id ∈ rest →
                  id ≠ current ∧ (id ∉ snd <$> q')
                  ∧ ∃ nd, ns' !! id = Some nd ∧ children nd = []) as Hpend'.
  { intros ns' q' Hns Hq id Hid.
    destruct (Hpend id) as (Hic & _ & nd & Hl & Hc); [by right|].
    split; [done|]. split; [by apply Hq|]. exists nd. split; [|done].
    rewrite Hns by done. unfold ns_a. by rewrite list_lookup_alter_ne. }
  assert (∀ id, id ∈ rest → id ∉ snd <$> open_set σ) as Hrest_fresh.
  { intros id Hid. apply Hpend. by right. }
  destruct (ns_a !! current) as [cur|] eqn:Hcur_a; [|by split].
  rewrite Hl_nb_a.
  destruct (g_score σ !! puzzle cur) as [g|] eqn:Hg; [|by split].
  set (t := g + 1).
  assert (Hcond : (match g_score σ !! puzzle ndnb with
                   | Some old => bool_decide (t < old)
                   | None => true
                   end) = true
                  → match g_score σ !! puzzle ndnb with
                    | Some old => t < old
                    | None => True
                    end).
  { destruct (g_score σ !! puzzle ndnb); [|done]. apply bool_decide_eq_true_1. }
  destruct (match g_score σ !! puzzle ndnb with
            | Some old => bool_decide (t < old)
            | None => true
            end).
  2:{ split; [done|]. split; [done|]. split; [done|]. by apply Hpend'. }
  specialize (Hcond eq_refl).
  pose proof (frontier_ok_g_score (mkState ns_a _ _) (puzzle ndnb) t Hok_a Hcond)
    as Hok_b.
  cbn [nodes open_set g_score] in Hok_b.
  destruct (combine_heuristics (puzzle ndnb) goal heuristics weights)
    as [h|] eqn:Hh; [|by split].
  set (sc := (inject_Z (Z.of_nat t) + h)%Q).
  set (ns_c := alter (set_heuristic sc) nb ns_a).
  set (g_b := <[puzzle ndnb := t]> (g_score σ)) in *.
  assert (FrontierOk (mkState ns_c (open_set σ) g_b)) as Hok_c.
  { apply (frontier_ok_store (mkState ns_a _ _)); [done|].
    by apply store_keeps_alter. }
  assert (ns_c !! nb = Some (set_heuristic sc ndnb)) as Hl_nb_c.
  { unfold ns_c. by rewrite list_lookup_alter_eq, Hl_nb_a. }
  assert (∀ id, id ≠ nb → ns_c !! id = ns_a !! id) as Hns_c.
  { intros id Hid. unfold ns_c. by rewrite list_lookup_alter_ne. }
  destruct (negb (in_open_set (mkState ns_c (open_set σ) g_b) (sc, nb))).
  2:{ split; [done|]. split; [done|]. split; [done|].
      apply Hpend'; [|done]. intros id Hid. apply Hns_c. by intros ->. }
  cbn [nodes open_set g_score search_inv].
  pose proof (pq_put_perm pq (sc, nb) (open_set σ)) as Hput.
  split; [|split; [|split; [done|]]].
  - apply (frontier_ok_put (mkState ns_c _ g_b) (sc, nb)); [done|done| |].
    + exists (set_heuristic sc ndnb), t, t, h.
      cbn [nodes g_score fst snd set_heuristic children puzzle].
      split; [done|]. split; [done|].
      split; [apply lookup_insert_eq|]. split; [lia|]. split; [done|].
      reflexivity.
    + cbn [nodes open_set fst snd]. intros e' n n' He' Hn Hn' Hp.
      rewrite Hl_nb_c in Hn. injection Hn as <-.
      rewrite Hns_c in Hn'.
      2:{ intros Heq. apply Hnb_fresh. apply list_elem_of_fmap. eauto. }
      by apply (better_cost_new_score (mkState ns_a _ _) ndnb t h Hok_a Hh Hcond
                  e' n').
  - rewrite Hput, fmap_cons, not_elem_of_cons. split; [done|done].
  - apply Hpend'.
    + intros id Hid. apply Hns_c. by intros ->.
    + intros id Hid. rewrite Hput, fmap_cons, not_elem_of_cons.
      split; [by intros ->|by apply Hrest_fresh].
Qed.

Lemma search_inv_step (c : Config) :
  SearchInv c → SearchInv (step pq goal heuristics weights c).
Proof.
  destruct c as [σ|σ current [|nb rest]|σ r]; cbn [step].
  - apply search_inv_loop_step.
  - by intros (Hok & _).
  - apply search_inv_for_step.
  - done.
Qed.

Lemma search_inv_run (start : list nat) (n : nat) :
  SearchInv (a_star_run pq goal heuristics weights start n).
Proof.
  unfold a_star_run. induction n as [|n IH]; cbn [Nat.iter nat_rect].
  - apply search_inv_init.
  - by apply search_inv_step.
Qed.

Lemma search_inv_frontier (c : Config) :
  SearchInv c → FrontierOk (config_state c).
Proof. destruct c; cbn [search_inv config_state]; tauto. Qed.

(** Entries of two different nodes are never equal for Python. *)
Lemma frontier_ok_py_ne (σ : SearchState) (e1 e2 : Entry) :
  FrontierOk σ → e1 ∈ open_set σ → e2 ∈ open_set σ → e1.2 ≠ e2.2 →
  py_eq (nodes σ) (entry_val e1) (entry_val e2) = false.
Proof.
  intros (_ & _ & Hsc) He1 He2 Hne. unfold entry_val. cbn [py_eq].
  destruct (nodes σ !! e1.2) as [n1|] eqn:Hn1; [|by rewrite andb_false_r].
  destruct (nodes σ !! e2.2) as [n2|] eqn:Hn2; [|by rewrite andb_false_r].
  case_bool_decide as Hp; [|by rewrite andb_false_r]. rewrite andb_true_r.
  destruct (Qeq_bool e1.1 e2.1) eqn:Hq; [|done].
  apply Qeq_bool_iff in Hq. by destruct (Hsc e1 e2 n1 n2).
Qed.

Lemma frontier_ok_distinct (σ : SearchState) :
  FrontierOk σ → entries_distinct σ.
Proof.
  intros Hok i j e1 e2 Hi Hj Hij.
  apply frontier_ok_py_ne; [done|by eapply list_elem_of_lookup_2..|].
  destruct Hok as (Hnd & _). intros Heq. apply Hij.
  eapply NoDup_lookup; [exact Hnd| |].
  - rewrite list_lookup_fmap. exact (f_equal (fmap snd) Hi).
  - rewrite list_lookup_fmap, Heq. exact (f_equal (fmap snd) Hj).
Qed.
End frontier.

(** The membership test of the source never finds anything: it compares
    the pair with the score and with the node of every entry, and a tuple
    equals neither a number nor a node. *)
Lemma in_open_set_false (σ : SearchState) (e : Entry) : in_open_set σ e = false.
Proof.
  unfold in_open_set. induction (open_set σ) as [|item q IH]; [done|].
  cbn [existsb]. by rewrite IH.
Qed.

(** With exact sums no two cells of the frontier hold equal
    [(score, node)] pairs, at any control point of any run: an entry is put
    only after the cost of its puzzle went down, and with the cost the
    exact score.  The float sums of the program do not keep this apart once
    the heuristic is large (see [requeued_scores_round_equal]). *)
Lemma frontier_distinct_with_exact_scores (pq : PriorityQueue) (goal : list nat)
    (heuristics : list Heuristic) (weights : list Q) (start : list nat) (n : nat) :
  entries_distinct (config_state (a_star_run pq goal heuristics weights start n)).
Proof. eapply frontier_ok_distinct, search_inv_frontier, search_inv_run. Qed.

(** C2.  The body of the [for] loop puts [(neighbor.heuristic, neighbor)]
    into the frontier whenever the cost of the neighbour's puzzle improves
    and [combine_heuristics] returns, whatever the frontier holds: the
    membership test in front of the [put] holds nothing back, and every
    entry that was queued, an entry for the same puzzle included, stays
    queued beside the new one. *)
Theorem improved_neighbor_is_put (pq : PriorityQueue) (goal : list nat)
    (heuristics : list Heuristic) (weights : list Q) (σ : SearchState)
    (current neighbor : nat) (rest : list nat) (cur nb : Node) (g : nat) :
  nodes σ !! current = Some cur →
  nodes σ !! neighbor = Some nb →
  g_score σ !! puzzle cur = Some g →
  (∀ old, g_score σ !! puzzle nb = Some old → g + 1 < old) →
  is_Some (combine_heuristics (puzzle nb) goal heuristics weights) →
  ∃ σ' nb',
    for_step pq goal heuristics weights σ current neighbor rest
    = ForEach σ' current rest
    ∧ nodes σ' !! neighbor = Some nb' ∧ puzzle nb' = puzzle nb
    ∧ g_score σ' = <[puzzle nb := g + 1]> (g_score σ)
    ∧ open_set σ' ≡ₚ (heuristic nb', neighbor) :: open_set σ.
Proof.
  intros Hcur Hnb Hg Hbetter [h Hh]. unfold for_step. cbn [nodes open_set g_score].
  set (ns_a := alter (append_child neighbor) current (nodes σ)).
  assert (∃ cur', ns_a !! current = Some cur' ∧ puzzle cur' = puzzle cur)
    as (cur' & -> & Hpc).
  { exists (append_child neighbor cur). split; [|done].
    unfold ns_a. by rewrite list_lookup_alter_eq, Hcur. }
  assert (∃ nb0, ns_a !! neighbor = Some nb0 ∧ puzzle nb0 = puzzle nb)
    as (nb0 & Hnb0 & Hpn).
  { unfold ns_a. destruct (decide (current = neighbor)) as [->|Hne].
    - exists (append_child neighbor nb). split; [|done].
      by rewrite list_lookup_alter_eq, Hnb.
    - exists nb. split; [|done]. by rewrite list_lookup_alter_ne. }
  rewrite Hnb0, Hpc, Hg, Hpn.
  assert (match g_score σ !! puzzle nb with
          | Some old => bool_decide (g + 1 < old)
          | None => true
          end = true) as ->.
  { destruct (g_score σ !! puzzle nb) as [old|] eqn:Hold; [|done].
    apply bool_decide_eq_true_2. by apply Hbetter. }
  rewrite Hh, in_open_set_false. cbn [negb].
  set (sc := (inject_Z (Z.of_nat (g + 1)) + h)%Q).
  eexists _, (set_heuristic sc nb0). split; [reflexivity|].
  cbn [nodes open_set g_score]. split; [|split; [done|split; [done|]]].
  - by rewrite list_lookup_alter_eq, Hnb0.
  - apply pq_put_perm.
Qed.

(** The run from [(0, 3, 1, 2, 4, 8, 5, 7, 6)] with the weights
    [[1e18, 0.0]].  After 51 steps the loop is at the node 3 of cost 2 and
    about to visit its neighbour 25, whose puzzle
    [(3, 4, 1, 0, 2, 8, 5, 7, 6)] is the one of the node 22, queued at cost
    9.  The cost improves to 3, and the step queues the node 25 beside the
    node 22. *)
Lemma improved_neighbor_is_put_witness :
  let run := a_star_run fifo_queue canonical_goal
               [manhattan_distance; hamming_distance] [(10 ^ 18)%Q; 0%Q]
               [0; 3; 1; 2; 4; 8; 5; 7; 6] in
  let σ := config_state (run 51) in
  run 51 = ForEach σ 3 [25; 26]
  ∧ (∃ s, open_set σ !! 8 = Some (s, 22) ∧ (s == 18 * 10 ^ 18 + 9)%Q)
  ∧ ∃ nb, nodes σ !! 25 = Some nb
          ∧ py_eq (nodes σ) (PyNode 22) (PyNode 25) = true
          ∧ ∃ σ' nb',
              for_step fifo_queue canonical_goal
                       [manhattan_distance; hamming_distance] [(10 ^ 18)%Q; 0%Q]
                       σ 3 25 [26]
              = ForEach σ' 3 [26]
              ∧ nodes σ' !! 25 = Some nb' ∧ puzzle nb' = puzzle nb
              ∧ g_score σ' = <[puzzle nb := 2 + 1]> (g_score σ)
              ∧ open_set σ' ≡ₚ (heuristic nb', 25) :: open_set σ.
Proof.
  intros run σ. split; [vm_compute; reflexivity|]. split.
  { eexists. split; [vm_compute; reflexivity|]. vm_compute. reflexivity. }
  eexists. split; [vm_compute; reflexivity|]. split; [vm_compute; reflexivity|].
  eapply (improved_neighbor_is_put fifo_queue canonical_goal
            [manhattan_distance; hamming_distance] [(10 ^ 18)%Q; 0%Q]
            σ 3 25 [26]).
  - vm_compute. reflexivity.
  - vm_compute. reflexivity.
  - vm_compute. reflexivity.
  - intros old. vm_compute. intros [= <-]. lia.
  - vm_compute. by eexists.
Defined.

(** One step later the frontier of that run holds the nodes 22 and 25,
    equal for [Node.__eq__], with the exact scores [18e18 + 9] and
    [18e18 + 3].  The program computes both sums in binary64, where both
    are [1.8e19]: its frontier holds the pair [(1.8e19, node)] twice. *)
Example requeued_scores_round_equal :
  let run := a_star_run fifo_queue canonical_goal
               [manhattan_distance; hamming_distance] [(10 ^ 18)%Q; 0%Q]
               [0; 3; 1; 2; 4; 8; 5; 7; 6] in
  let σ := config_state (run 52) in
  ∃ s1 s2,
    open_set σ !! 8 = Some (s1, 22) ∧ open_set σ !! 11 = Some (s2, 25)
    ∧ py_eq (nodes σ) (PyNode 22) (PyNode 25) = true
    ∧ (s1 == 18 * 10 ^ 18 + 9)%Q ∧ (s2 == 18 * 10 ^ 18 + 3)%Q
    ∧ (binary64 s1 == 18 * 10 ^ 18)%Q ∧ (binary64 s2 == 18 * 10 ^ 18)%Q.
Proof.
  intros run σ. eexists _, _.
  split; [vm_compute; reflexivity|]. split; [vm_compute; reflexivity|].
  split; [vm_compute; reflexivity|].
  repeat split; vm_compute; reflexivity.
Qed.

(** The second step of the run from one move away puts the first neighbour
    into the frontier; the third adds the next one beside it. *)
Example frontier_grows_without_duplicates :
  let run := a_star_run fifo_queue canonical_goal
                        [manhattan_distance; hamming_distance] [1%Q; 0%Q]
                        [1; 0; 2; 3; 4; 5; 6; 7; 8] in
  open_set (config_state (run 2)) = [((1 + 8)%Q, 1)]
  ∧ open_set (config_state (run 3)) = [((1 + 8)%Q, 1); ((1 + 0)%Q, 2)].
Proof. split; vm_compute; reflexivity. Qed.

(** Whatever the run, the node returned as goal has no children when
    [a_star] returns, so the ['depth'] of [start_run] is 0 and its
    ['expanded_nodes'] is a node. *)
Lemma start_run_depth_zero (pq : PriorityQueue) (fuel : nat)
    (start : list nat) (weights : list Q) (goal : list nat) (r : RunRecord) :
  start_run pq fuel start weights goal = Some r →
  r_depth r = 0%Z ∧ ∃ root, r_expanded_nodes r = PyNode root.
Proof.
  unfold start_run, a_star.
  pose proof (search_inv_run pq goal [manhattan_distance; hamming_distance]
                weights start fuel) as Hinv.
  destruct (a_star_run pq goal [manhattan_distance; hamming_distance] weights
              start fuel) as [?|? ? ?|σ [current root| |]]; try done.
  destruct Hinv as (_ & nd & Hnd & Hch).
  pose proof (lookup_lt_Some _ _ _ Hnd) as Hlt.
  destruct (length (nodes σ)) as [|f]; [lia|].
  cbn [tree_of]. rewrite Hnd. cbn [mbind option_bind]. rewrite Hch.
  cbn [mapM mret option_ret mbind option_bind].
  intros [= <-]. split; [done|by exists root].
Qed.


(** * Further properties of the heuristics *)

(** The loop of [hamming_distance] over the cells [l]. *)
Definition misplaced_in (start goal : list nat) (l : list nat) : Z :=
  foldr (λ i misplaced,
           if decide (start !!! i ≠ goal !!! i)
           then (misplaced + 1)%Z else misplaced) 0%Z l.

Lemma misplaced_in_bounds (start goal l : list nat) :
  (0 ≤ misplaced_in start goal l ≤ Z.of_nat (length l))%Z.
Proof.
  induction l as [|i l IH]; cbn [misplaced_in foldr length]; [lia|].
  fold (misplaced_in start goal l). case_decide; lia.
Qed.

Lemma misplaced_in_zero (start goal l : list nat) :
  misplaced_in start goal l = 0%Z ↔ Forall (λ i, start !!! i = goal !!! i) l.
Proof.
  induction l as [|i l IH]; cbn [misplaced_in foldr].
  - split; [constructor|done].
  - fold (misplaced_in start goal l).
    pose proof (misplaced_in_bounds start goal l).
    rewrite Forall_cons. case_decide as Hi.
    + split; [lia|]. intros [? _]. done.
    + rewrite IH. tauto.
Qed.

Lemma hamming_distance_length (start goal : list nat) :
  length start = 9 → length goal = 9 →
  hamming_distance start goal = Some (misplaced_in start goal (seq 0 9)).
Proof.
  intros Hs Hg. unfold hamming_distance, np_reshape33.
  by rewrite !decide_True by done.
Qed.

(** X1.  On two 9-tuples [hamming_distance] answers 0 exactly when they are
    equal, and never less than 0 or more than 9. *)
Theorem hamming_distance_zero_iff (start goal : list nat) :
  length start = 9 → length goal = 9 →
  ∃ d, hamming_distance start goal = Some d
       ∧ (0 ≤ d ≤ 9)%Z ∧ (d = 0%Z ↔ start = goal).
Proof.
  intros Hs Hg. eexists. split; [by apply hamming_distance_length|].
  split; [apply (misplaced_in_bounds start goal (seq 0 9))|].
  rewrite misplaced_in_zero, Forall_forall. split.
  - intros Hall. apply list_eq_same_length with 9; [done..|].
    intros i x y Hi Hx Hy.
    specialize (Hall i). rewrite elem_of_seq in Hall.
    rewrite (list_lookup_total_correct _ _ _ Hx),
      (list_lookup_total_correct _ _ _ Hy) in Hall. apply Hall. lia.
  - by intros ->.
Qed.

Lemma hamming_distance_zero_iff_witness :
  ∃ d, hamming_distance [1; 0; 2; 3; 4; 5; 6; 7; 8] canonical_goal = Some d
       ∧ (0 ≤ d ≤ 9)%Z
       ∧ (d = 0%Z ↔ [1; 0; 2; 3; 4; 5; 6; 7; 8] = canonical_goal).
Proof.
  apply (hamming_distance_zero_iff [1; 0; 2; 3; 4; 5; 6; 7; 8] canonical_goal);
    reflexivity.
Defined.

(** X2.  [hamming_distance] raises exactly when one of its arguments does
    not have 9 entries (the reshape to 3x3 fails). *)
Theorem hamming_distance_raises_iff (start goal : list nat) :
  hamming_distance start goal = None ↔ length start ≠ 9 ∨ length goal ≠ 9.
Proof.
  unfold hamming_distance, np_reshape33.
  destruct (decide (length start = 9)); cbn [mbind option_bind]; [|tauto].
  destruct (decide (length goal = 9)); cbn [mbind option_bind]; [|tauto].
  split; [done|]. tauto.
Qed.

Lemma flat_distance_sym (s g : list nat) : flat_distance s g = flat_distance g s.
Proof.
  unfold flat_distance. f_equal. apply list_fmap_ext. intros i v _. lia.
Qed.

Lemma np_sum_zero_terms (f : nat → Z) (l : list nat) :
  (∀ i, 0 ≤ f i)%Z → np_sum (f <$> l) = 0%Z → Forall (λ i, f i = 0%Z) l.
Proof.
  intros Hf. unfold np_sum. induction l as [|i l IH]; [constructor|].
  rewrite fmap_cons. cbn [foldr]. intros Hsum.
  assert (0 ≤ foldr Z.add 0 (f <$> l))%Z as Hnn.
  { clear IH Hsum. induction l as [|j l IH]; cbn; [lia|].
    specialize (Hf j). fold (fmap (M:=list) f l). lia. }
  specialize (Hf i). constructor; [lia|]. apply IH. lia.
Qed.

(** X3.  On states [manhattan_distance] is symmetric, never negative, and 0
    exactly when the two states are equal. *)
Theorem manhattan_distance_zero_iff (s g : list nat) :
  is_state s → is_state g →
  ∃ d, manhattan_distance s g = Some d ∧ manhattan_distance g s = Some d
       ∧ (0 ≤ d)%Z ∧ (d = 0%Z ↔ s = g).
Proof.
  intros Hs Hg. exists (flat_distance s g).
  split; [by apply manhattan_distance_state|].
  split; [rewrite flat_distance_sym; by apply manhattan_distance_state|].
  rewrite (flat_distance_by_cell s g Hs).
  set (f := λ i, Z.abs (Z.of_nat (index_of (s !!! i) g) - Z.of_nat i)).
  assert (∀ i, 0 ≤ f i)%Z as Hf by (intros i; unfold f; lia).
  split.
  { clear -Hf. unfold np_sum. induction (seq 0 9) as [|j l IH]; cbn; [lia|].
    specialize (Hf j). fold (fmap (M:=list) f l). lia. }
  split.
  - intros Hz%(np_sum_zero_terms f); [|done].
    rewrite Forall_forall in Hz.
    pose proof (is_state_length _ Hs) as Hls.
    pose proof (is_state_length _ Hg) as Hlg.
    apply list_eq_same_length with 9; [done..|].
    intros i x y Hi Hx Hy.
    specialize (Hz i). rewrite elem_of_seq in Hz. unfold f in Hz.
    rewrite (list_lookup_total_correct _ _ _ Hx) in Hz.
    assert (index_of x g = i) as Hidx by lia.
    assert (x < 9) as Hx9.
    { apply (is_state_elem s x Hs). by eapply list_elem_of_lookup_2. }
    pose proof (index_of_state g x Hg Hx9) as Hgx.
    rewrite Hidx in Hgx. congruence.
  - intros <-. unfold f. rewrite <- (flat_distance_by_cell s s Hs).
    apply flat_distance_refl.
Qed.

Lemma manhattan_distance_zero_iff_witness :
  ∃ d, manhattan_distance [1; 0; 2; 3; 4; 5; 6; 7; 8] canonical_goal = Some d
       ∧ manhattan_distance canonical_goal [1; 0; 2; 3; 4; 5; 6; 7; 8] = Some d
       ∧ (0 ≤ d)%Z ∧ (d = 0%Z ↔ [1; 0; 2; 3; 4; 5; 6; 7; 8] = canonical_goal).
Proof.
  apply (manhattan_distance_zero_iff [1; 0; 2; 3; 4; 5; 6; 7; 8] canonical_goal);
    apply (bool_decide_unpack _); by vm_compute.
Defined.

Lemma scatter_out_of_range (idx : list nat) :
  ∀ (pos : list (option nat)) (k : nat),
    (∃ v, v ∈ idx ∧ length pos ≤ v) → scatter pos idx k = None.
Proof.
  induction idx as [|v idx IH]; intros pos k (w & Hw & Hge).
  - by apply elem_of_nil in Hw.
  - cbn [scatter]. case_decide as Hv; [|done].
    apply IH. exists w. rewrite length_insert. split; [|done].
    apply elem_of_cons in Hw as [->|Hw]; [lia|done].
Qed.

Lemma build_position_matrix_out_of_range (m : list nat) (v : nat) :
  v ∈ m → 9 ≤ v → build_position_matrix m = None.
Proof.
  intros Hv Hge. unfold build_position_matrix.
  rewrite scatter_out_of_range; [done|].
  exists v. unfold np_empty. by rewrite length_replicate.
Qed.

(** X4.  [manhattan_distance] raises when an argument does not have 9
    entries, and when one of them holds a value above 8 (the position array
    has 9 cells). *)
Theorem manhattan_distance_raises (start goal : list nat) :
  length start ≠ 9 ∨ length goal ≠ 9
  ∨ (∃ v, (v ∈ start ∨ v ∈ goal) ∧ 9 ≤ v) →
  manhattan_distance start goal = None.
Proof.
  intros H. unfold manhattan_distance, np_reshape33.
  destruct (decide (length start = 9)); cbn [mbind option_bind]; [|done].
  destruct (decide (length goal = 9)); cbn [mbind option_bind]; [|done].
  destruct H as [?|[?|(v & [Hv|Hv] & Hge)]]; [done|done| |].
  - by rewrite (build_position_matrix_out_of_range start v).
  - rewrite (build_position_matrix_out_of_range goal v) by done.
    by destruct (build_position_matrix start).
Qed.

Lemma manhattan_distance_raises_witness :
  manhattan_distance [9; 1; 2; 3; 4; 5; 6; 7; 8] canonical_goal = None.
Proof.
  apply (manhattan_distance_raises [9; 1; 2; 3; 4; 5; 6; 7; 8] canonical_goal).
  right. right. exists 9. split; [left; by left|lia].
Defined.

Lemma misplaced_in_le_flat (s g l : list nat) :
  is_state s → is_state g → Forall (λ i, i < 9) l →
  (misplaced_in s g l
   ≤ np_sum ((λ i, Z.abs (Z.of_nat (index_of (s !!! i) g) - Z.of_nat i)) <$> l))%Z.
Proof.
  intros Hs Hg Hl. unfold np_sum.
  induction Hl as [|i l Hi _ IH]; cbn [misplaced_in foldr fmap list_fmap]; [lia|].
  fold (misplaced_in s g l).
  fold (fmap (M:=list)
          (λ i, Z.abs (Z.of_nat (index_of (s !!! i) g) - Z.of_nat i)) l).
  case_decide as Hne; [|lia].
  assert (index_of (s !!! i) g ≠ i); [|lia].
  intros Hidx.
  assert (s !!! i < 9) as Hv.
  { apply (is_state_elem s _ Hs). apply list_elem_of_lookup_total_2.
    rewrite (is_state_length _ Hs). done. }
  pose proof (index_of_state g _ Hg Hv) as Hgi. rewrite Hidx in Hgi.
  by rewrite (list_lookup_total_correct _ _ _ Hgi) in Hne.
Qed.

(** X5.  On states [hamming_distance] never exceeds [manhattan_distance]:
    every misplaced cell holds a value at least one cell away from its
    goal cell. *)
Theorem hamming_le_manhattan (s g : list nat) :
  is_state s → is_state g →
  ∃ h m, hamming_distance s g = Some h ∧ manhattan_distance s g = Some m
         ∧ (h ≤ m)%Z.
Proof.
  intros Hs Hg. eexists _, _.
  split; [apply hamming_distance_length; by apply is_state_length|].
  split; [by apply manhattan_distance_state|].
  rewrite (flat_distance_by_cell s g Hs).
  apply misplaced_in_le_flat; [done..|].
  apply Forall_forall. intros i Hi%elem_of_seq. lia.
Qed.

Lemma hamming_le_manhattan_witness :
  ∃ h m, hamming_distance [2; 4; 0; 5; 6; 1; 8; 7; 3] canonical_goal = Some h
         ∧ manhattan_distance [2; 4; 0; 5; 6; 1; 8; 7; 3] canonical_goal = Some m
         ∧ (h ≤ m)%Z.
Proof.
  apply (hamming_le_manhattan [2; 4; 0; 5; 6; 1; 8; 7; 3] canonical_goal);
    apply (bool_decide_unpack _); by vm_compute.
Defined.

(** * Further properties of [combine_heuristics] *)

(** The weighted sum over the heuristics whose weight is positive. *)
Definition weighted_sum (weights : list Q) (values : list Z) : Q :=
  foldr Qplus 0%Q
        (zip_with (λ w v, if Qle_bool w 0 then 0%Q else (w * inject_Z v)%Q)
                  weights values).

Lemma combine_loop_weighted_sum (start goal : list nat) (weights : list Q)
    (heuristics : list Heuristic) (values : list Z) :
  Forall2 (λ (h : Heuristic) v, h start goal = Some v) heuristics values →
  ∀ i total,
    i + length heuristics ≤ length weights →
    ∃ q, combine_loop start goal heuristics weights i total = Some q
         ∧ (q == total + weighted_sum (drop i weights) values)%Q.
Proof.
  induction 1 as [|h v hs vs Hh _ IH]; intros i total Hlen.
  - exists total. split; [done|]. unfold weighted_sum.
    rewrite zip_with_nil_r. cbn. by rewrite Qplus_0_r.
  - cbn [length] in Hlen.
    destruct (lookup_lt_is_Some_2 weights i ltac:(lia)) as [w Hw].
    rewrite (drop_S _ _ _ Hw). cbn [combine_loop]. rewrite Hw.
    cbn [mbind option_bind]. unfold weighted_sum. cbn [zip_with foldr].
    fold (weighted_sum (drop (S i) weights) vs).
    destruct (Qle_bool w 0); cbn [negb].
    + destruct (IH (S i) total ltac:(lia)) as (q & -> & Hq).
      exists q. split; [done|]. rewrite Hq. ring.
    + rewrite Hh. cbn [mbind option_bind].
      destruct (IH (S i) (total + w * inject_Z v)%Q ltac:(lia)) as (q & -> & Hq).
      exists q. split; [done|]. rewrite Hq. ring.
Qed.

(** X6.  When every heuristic returns a value and there are at least as
    many weights as heuristics, [combine_heuristics] returns the sum of
    weight times value over the heuristics of positive weight. *)
Theorem combine_heuristics_weighted_sum (start goal : list nat)
    (heuristics : list Heuristic) (values : list Z) (weights : list Q) :
  Forall2 (λ (h : Heuristic) v, h start goal = Some v) heuristics values →
  length heuristics ≤ length weights →
  ∃ q, combine_heuristics start goal heuristics weights = Some q
       ∧ (q == weighted_sum weights values)%Q.
Proof.
  intros Hv Hlen.
  destruct (combine_loop_weighted_sum start goal weights heuristics values Hv
              0 0%Q Hlen) as (q & Hq & Heq).
  exists q. split; [done|]. rewrite Heq, drop_0. ring.
Qed.

Lemma combine_heuristics_weighted_sum_witness :
  ∃ q, combine_heuristics [1; 0; 2; 3; 4; 5; 6; 7; 8] canonical_goal
                          [manhattan_distance; hamming_distance]
                          [(1 # 2)%Q; (1 # 2)%Q] = Some q
       ∧ (q == weighted_sum [(1 # 2)%Q; (1 # 2)%Q] [2%Z; 2%Z])%Q.
Proof.
  apply (combine_heuristics_weighted_sum [1; 0; 2; 3; 4; 5; 6; 7; 8]
           canonical_goal [manhattan_distance; hamming_distance] [2%Z; 2%Z]).
  - repeat constructor.
  - cbn. lia.
Defined.

Lemma combine_loop_short_weights (start goal : list nat) (weights : list Q)
    (heuristics : list Heuristic) :
  ∀ i total,
    i ≤ length weights → length weights < i + length heuristics →
    combine_loop start goal heuristics weights i total = None.
Proof.
  induction heuristics as [|h hs IH]; intros i total Hi Hlen;
    cbn [length] in Hlen.
  - lia.
  - cbn [combine_loop].
    destruct (weights !! i) as [w|] eqn:Hw; cbn [mbind option_bind]; [|done].
    apply lookup_lt_Some in Hw.
    destruct (negb (Qle_bool w 0)); [|apply IH; lia].
    destruct (h start goal); cbn [mbind option_bind]; [|done]. apply IH; lia.
Qed.

(** X7.  With fewer weights than heuristics [combine_heuristics] raises
    (the index into [weights] runs out), whatever the weights are. *)
Theorem combine_heuristics_short_weights (start goal : list nat)
    (heuristics : list Heuristic) (weights : list Q) :
  length weights < length heuristics →
  combine_heuristics start goal heuristics weights = None.
Proof. intros Hlen. apply combine_loop_short_weights; lia. Qed.

Lemma combine_heuristics_short_weights_witness :
  combine_heuristics canonical_goal canonical_goal
                     [manhattan_distance; hamming_distance] [0%Q] = None.
Proof.
  apply (combine_heuristics_short_weights canonical_goal canonical_goal
           [manhattan_distance; hamming_distance] [0%Q]).
  cbn. lia.
Defined.

Lemma combine_loop_skips (start goal : list nat) (weights : list Q)
    (h h' : Heuristic) (after : list Heuristic) (w : Q) (before : list Heuristic) :
  (w <= 0)%Q →
  ∀ i total,
    weights !! (i + length before) = Some w →
    combine_loop start goal (before ++ h :: after) weights i total
    = combine_loop start goal (before ++ h' :: after) weights i total.
Proof.
  intros Hw%Qle_bool_iff.
  induction before as [|b before IH]; intros i total Hl; cbn [length app] in *.
  - rewrite Nat.add_0_r in Hl. cbn [combine_loop]. rewrite Hl.
    cbn [mbind option_bind]. by rewrite Hw.
  - cbn [combine_loop].
    destruct (weights !! i) as [wi|]; cbn [mbind option_bind]; [|done].
    assert (weights !! (S i + length before) = Some w) as Hl'
      by (rewrite <- Hl; f_equal; lia).
    destruct (negb (Qle_bool wi 0)); [|by apply IH].
    destruct (b start goal); cbn [mbind option_bind]; [|done]. by apply IH.
Qed.

(** X8.  A heuristic whose weight is zero or negative is never called:
    replacing it by any other function, even one that raises, does not
    change what [combine_heuristics] returns. *)
Theorem combine_heuristics_skips_nonpositive (start goal : list nat)
    (before after : list Heuristic) (h h' : Heuristic) (weights : list Q) (w : Q) :
  weights !! length before = Some w → (w <= 0)%Q →
  combine_heuristics start goal (before ++ h :: after) weights
  = combine_heuristics start goal (before ++ h' :: after) weights.
Proof.
  intros Hl Hw. unfold combine_heuristics.
  by apply (combine_loop_skips start goal weights h h' after w before Hw 0 0%Q).
Qed.

Lemma combine_heuristics_skips_nonpositive_witness :
  combine_heuristics [1; 0; 2; 3; 4; 5; 6; 7; 8] canonical_goal
                     ([manhattan_distance] ++ hamming_distance :: [])
                     [1%Q; 0%Q]
  = combine_heuristics [1; 0; 2; 3; 4; 5; 6; 7; 8] canonical_goal
                       ([manhattan_distance] ++ (λ _ _, None) :: [])
                       [1%Q; 0%Q].
Proof.
  apply (combine_heuristics_skips_nonpositive [1; 0; 2; 3; 4; 5; 6; 7; 8]
           canonical_goal [manhattan_distance] [] hamming_distance
           (λ _ _, None) [1%Q; 0%Q] 0%Q).
  - reflexivity.
  - apply Qle_refl.
Defined.

(** * Solvability is invariant under the moves *)

(** Moving one value across a block that does not hold it changes the
    number of inversions by the length of the block, up to an even
    amount. *)
Lemma inversions_shift (a b c : list nat) (y : nat) :
  y ∉ b →
  (inversions (a ++ b ++ y :: c) + inversions (a ++ y :: b ++ c) + length b)
    `mod` 2 = 0.
Proof.
  intros Hy. rewrite !inversions_app.
  rewrite (cross_inversions_perm a (b ++ y :: c) (y :: b ++ c))
    by (by rewrite <- Permutation_middle).
  cbn [inversions]. rewrite !inversions_app. cbn [inversions].
  rewrite !filter_app, !length_app, !cross_inversions_cons.
  pose proof (below_above_length y b Hy). solve_mod2.
Qed.

Lemma swap_cells_split_length (p : list nat) (i j : nat) :
  i < j → j < length p →
  ∃ a x b y c,
    p = a ++ x :: b ++ y :: c ∧ length a = i ∧ length b = j - i - 1
    ∧ swap_cells i j p = a ++ y :: b ++ x :: c.
Proof.
  intros Hij Hj.
  destruct (lookup_lt_is_Some_2 p i ltac:(lia)) as [x Hx].
  destruct (lookup_lt_is_Some_2 p j Hj) as [y Hy].
  pose proof Hx as Hx'. pose proof Hy as Hy'.
  apply list_elem_of_split_length in Hx as (a & r & -> & ->).
  rewrite lookup_app_r in Hy by lia.
  destruct (j - length a) as [|k] eqn:Ek; [lia|]. cbn in Hy.
  apply list_elem_of_split_length in Hy as (b & c & -> & ->).
  exists a, x, b, y, c. split; [done|]. split; [done|]. split; [lia|].
  unfold swap_cells.
  rewrite (list_lookup_total_correct _ _ _ Hx'), (list_lookup_total_correct _ _ _ Hy').
  replace j with (length a + S (length b)) by lia.
  rewrite insert_app_r. cbn [insert list_insert].
  rewrite (insert_app_r_alt b) by lia. rewrite Nat.sub_diag. cbn [insert list_insert].
  rewrite (insert_app_r_alt a) by lia. rewrite Nat.sub_diag. done.
Qed.

Lemma filter_nonzero_id (b : list nat) :
  0 ∉ b → filter (λ v, v ≠ 0) b = b.
Proof.
  induction b as [|v b IH]; [done|].
  rewrite not_elem_of_cons. intros [Hv Hb].
  rewrite filter_cons, decide_True by done. by rewrite IH.
Qed.

(** Exchanging the blank with a cell one or three cells further leaves the
    parity of the inversions unchanged. *)
Lemma blank_exchange_parity (p : list nat) (i j : nat) :
  is_state p → i < j → j < 9 → (j = i + 1 ∨ j = i + 3) →
  (p !! i = Some 0 ∨ p !! j = Some 0) →
  is_solvable (swap_cells i j p) = is_solvable p.
Proof.
  intros Hp Hij Hj Hdist Hblank.
  pose proof (is_state_length _ Hp) as Hlen.
  pose proof (is_state_NoDup _ Hp) as Hnd.
  rewrite !is_solvable_inversions by (by rewrite ?swap_cells_length).
  destruct (swap_cells_split_length p i j Hij ltac:(lia))
    as (a & x & b & y & c & Hsplit & Hla & Hlb & ->).
  subst p. f_equal.
  assert ((a ++ x :: b ++ y :: c) !! i = Some x) as Hx.
  { by apply list_lookup_middle. }
  assert ((a ++ x :: b ++ y :: c) !! j = Some y) as Hy.
  { replace (a ++ x :: b ++ y :: c) with ((a ++ x :: b) ++ y :: c)
      by (by rewrite <- app_assoc).
    apply list_lookup_middle. rewrite length_app. cbn [length]. lia. }
  rewrite Hx, Hy in Hblank.
  assert (length b `mod` 2 = 0) as Hb2.
  { rewrite Hlb. destruct Hdist as [->| ->].
    - by replace (i + 1 - i - 1) with 0 by lia.
    - by replace (i + 3 - i - 1) with 2 by lia. }
  apply NoDup_app in Hnd as (_ & _ & Hnd).
  apply NoDup_cons in Hnd as [Hxn Hnd].
  apply NoDup_app in Hnd as (_ & Hby & _).
  rewrite not_elem_of_app, not_elem_of_cons in Hxn.
  destruct Hxn as (Hxb & Hxy & _).
  assert (y ∉ b) as Hyb by (intros ?; by eapply Hby; [|left]).
  rewrite !filter_app, !filter_cons, !filter_app, !filter_cons.
  set (fa := filter _ a). set (fc := filter _ c).
  destruct Hblank as [[= ->]|[= ->]].
  - rewrite (filter_nonzero_id b Hxb).
    rewrite !(decide_False (P:=0 ≠ 0)) by (intros H; by apply H).
    rewrite !(decide_True (P:=y ≠ 0)) by congruence.
    pose proof (inversions_shift fa b fc y Hyb).
    repeat case_bool_decide; try done; exfalso; solve_mod2.
  - rewrite (filter_nonzero_id b Hyb).
    rewrite !(decide_False (P:=0 ≠ 0)) by (intros H; by apply H).
    rewrite !(decide_True (P:=x ≠ 0)) by congruence.
    pose proof (inversions_shift fa b fc x Hxb).
    repeat case_bool_decide; try done; exfalso; solve_mod2.
Qed.

(** A legal move exchanges the blank with the cell reached by one of the
    four directions. *)
Lemma legal_move_blank (s s' : list nat) :
  is_state s → legal_move s s' →
  ∃ row col d,
    row < 3 ∧ col < 3 ∧ s !! cell row col = Some 0
    ∧ d ∈ directions ∧ in_bounds d row col
    ∧ s' = swap_cells (cell row col) (moved_cell d row col) s.
Proof.
  intros Hs (nbs & n & Hg & Hn & <-).
  destruct (get_neighbors_state 0 (Node_init "root" s None [] 0) Hs)
    as (row & col & _ & Hr & Hc & Hb & Hg').
  rewrite Hg' in Hg. apply (inj Some) in Hg. subst nbs.
  apply (candidates_elem _ (λ d, Node_init d _ (Some 0) [] 0)) in Hn
    as (d & Hd & [Hin _] & ->).
  by exists row, col, d.
Qed.

Lemma legal_move_solvable (s s' : list nat) :
  is_state s → legal_move s s' → is_solvable s' = is_solvable s.
Proof.
  intros Hs (row & col & d & Hr & Hc & Hb & Hd & Hin & ->)%legal_move_blank;
    [|done].
  revert Hd Hin. unfold directions. rewrite !elem_of_cons, elem_of_nil.
  intros [->|[->|[->|[->|[]]]]];
    [intros ?%in_bounds_up | intros ?%in_bounds_down
     | intros ?%in_bounds_left | intros ?%in_bounds_right].
  - change (moved_cell "up" row col) with (cell (row - 1) col).
    rewrite swap_cells_comm. unfold cell in *.
    apply blank_exchange_parity; [done|lia|lia|lia|by right].
  - change (moved_cell "down" row col) with (cell (row + 1) col).
    unfold cell in *.
    apply blank_exchange_parity; [done|lia|lia|lia|by left].
  - change (moved_cell "left" row col) with (cell row (col - 1)).
    rewrite swap_cells_comm. unfold cell in *.
    apply blank_exchange_parity; [done|lia|lia|lia|by right].
  - change (moved_cell "right" row col) with (cell row (col + 1)).
    unfold cell in *.
    apply blank_exchange_parity; [done|lia|lia|lia|by left].
Qed.

Lemma moves_solvable (k : nat) (s g : list nat) :
  is_state s → moves k s g → is_solvable g = is_solvable s.
Proof.
  intros Hs Hm. induction Hm as [s|k s s' g Hmove _ IH]; [done|].
  rewrite IH by (by eapply legal_move_state).
  by apply legal_move_solvable.
Qed.

(** X9.  [is_solvable] gives the same answer on a state and on every state
    reached from it by legal moves; in particular no sequence of moves leads
    from a state it rejects to the ascending goal. *)
Theorem moves_preserve_solvable (k : nat) (s g : list nat) :
  is_state s → moves k s g →
  is_solvable g = is_solvable s
  ∧ (is_solvable s = Some false → g ≠ canonical_goal).
Proof.
  intros Hs Hm. pose proof (moves_solvable k s g Hs Hm) as Heq.
  split; [done|]. intros Hf ->. by rewrite Hf in Heq.
Qed.

Lemma moves_preserve_solvable_witness :
  is_solvable canonical_goal = is_solvable [1; 0; 2; 3; 4; 5; 6; 7; 8]
  ∧ (is_solvable [1; 0; 2; 3; 4; 5; 6; 7; 8] = Some false
     → canonical_goal ≠ canonical_goal).
Proof.
  apply (moves_preserve_solvable 1 [1; 0; 2; 3; 4; 5; 6; 7; 8] canonical_goal).
  - apply (bool_decide_unpack _). by vm_compute.
  - exact one_move_to_goal.
Defined.

(** * Further properties of the metrics *)

(** The nodes of a tree, parent before children. *)
Fixpoint tree_nodes (t : Tree) : list Node :=
  let 'TNode n kids := t in n :: concat (tree_nodes <$> kids).

Lemma visited_fold_shift (kids : list Tree) (acc : nat) :
  Forall (λ k, visited_nodes_recursion k + 1 = length (tree_nodes k)) kids →
  foldl (λ visited_nodes child,
           visited_nodes + 1 + visited_nodes_recursion child) acc kids
  = acc + length (concat (tree_nodes <$> kids)).
Proof.
  intros H. revert acc. induction H as [|k kids Hk _ IH]; intros acc.
  - cbn. lia.
  - rewrite fmap_cons. cbn [foldl concat]. rewrite IH, length_app, <- Hk. lia.
Qed.

Lemma Node_len_counts_nodes_aux (t : Tree) : Node_len t = length (tree_nodes t).
Proof.
  unfold Node_len.
  enough (visited_nodes_recursion t + 1 = length (tree_nodes t)) by lia.
  induction t as [n kids IH] using Tree_rect'.
  cbn [visited_nodes_recursion tree_nodes length].
  rewrite visited_fold_shift by done. lia.
Qed.

(** X10.  [Node.__len__] is the number of nodes of the tree below (and
    including) the node. *)
Theorem Node_len_counts_nodes (t : Tree) : Node_len t = length (tree_nodes t).
Proof. apply Node_len_counts_nodes_aux. Qed.

Lemma nodes_with_children_lt (t : Tree) :
  nodes_with_children t + 1 ≤ length (tree_nodes t).
Proof.
  induction t as [n kids IH] using Tree_rect'.
  rewrite nodes_with_children_unfold. cbn [tree_nodes length].
  assert (sum_list (nodes_with_children <$> kids) + length kids
          ≤ length (concat (tree_nodes <$> kids))) as Hsum.
  { induction IH as [|k kids Hk _ IHk]; [cbn; lia|].
    rewrite !fmap_cons. cbn [sum_list_with concat length].
    rewrite length_app. unfold id in *. lia. }
  destruct kids; cbn [length] in *; lia.
Qed.

(** X11.  The expanded count of a tree is at least 1 and at most its node
    count, so the branching factor computed from the two never divides by
    zero; it is never negative, and at least 1 when the root has a child. *)
Theorem branching_factor_of_tree (root : Tree) :
  1 ≤ calculate_expanded_nodes root ≤ Node_len root
  ∧ ∃ bf, calculate_branching_factor
            (inject_Z (Z.of_nat (Node_len root)))
            (inject_Z (Z.of_nat (calculate_expanded_nodes root))) = Some bf
          ∧ (0 <= bf)%Q ∧ (tree_kids root ≠ [] → (1 <= bf)%Q).
Proof.
  pose proof (nodes_with_children_lt root) as Hlt.
  pose proof (calculate_expanded_nodes_count root) as He.
  rewrite <- Node_len_counts_nodes_aux in Hlt.
  assert (1 ≤ Node_len root) as Hv by (unfold Node_len; lia).
  assert (1 ≤ calculate_expanded_nodes root) as He1
    by (unfold calculate_expanded_nodes; lia).
  assert (tree_kids root ≠ [] →
          calculate_expanded_nodes root + 1 ≤ Node_len root) as Hkids.
  { intros Hk. destruct (tree_kids root); [done|lia]. }
  split.
  { split; [done|]. destruct (tree_kids root); lia. }
  set (V := Node_len root) in *. set (E := calculate_expanded_nodes root) in *.
  clearbody V E.
  assert (0 < inject_Z (Z.of_nat E))%Q as HE.
  { unfold Qlt. cbn. lia. }
  unfold calculate_branching_factor.
  destruct (Qeq_bool (inject_Z (Z.of_nat E)) 0) eqn:Hz.
  { apply Qeq_bool_iff in Hz. rewrite Hz in HE. by apply Qlt_irrefl in HE. }
  eexists. split; [reflexivity|]. split.
  - apply Qle_shift_div_l; [done|]. unfold Qle. cbn. lia.
  - intros Hk%Hkids. apply Qle_shift_div_l; [done|]. unfold Qle. cbn. lia.
Qed.

(** * Further properties of [reconstruct_path] *)

(** X12.  A reconstructed path starts at the given node, follows [parent]
    references step by step, and ends at a node without parent. *)
Theorem reconstruct_path_chain (fuel : nat) (nodes : list Node) (node : nat)
    (path : list nat) :
  reconstruct_path fuel nodes node = Some path →
  head path = Some node
  ∧ (∃ r nd, last path = Some r ∧ nodes !! r = Some nd ∧ parent nd = None)
  ∧ ∀ i a b, path !! i = Some a → path !! S i = Some b →
             ∃ nd, nodes !! a = Some nd ∧ parent nd = Some b.
Proof.
  revert node path. induction fuel as [|fuel IH]; intros node path; [done|].
  cbn [reconstruct_path].
  destruct (nodes !! node) as [nd|] eqn:Hnd; cbn [mbind option_bind]; [|done].
  destruct (parent nd) as [p|] eqn:Hp.
  - destruct (reconstruct_path fuel nodes p) as [rest|] eqn:Hrest;
      cbn [mbind option_bind]; [|done].
    intros [= <-]. destruct (IH p rest Hrest) as (Hhead & Hlast & Hchain).
    split; [done|]. split.
    + destruct rest as [|r0 rest]; [done|]. by rewrite last_cons_cons.
    + intros [|i] a b Ha Hb; cbn in Ha, Hb.
      * injection Ha as <-. exists nd. split; [done|].
        destruct rest; cbn in *; congruence.
      * by eapply Hchain.
  - intros [= <-]. split; [done|]. split; [by exists node, nd|].
    intros [|i] a b Ha Hb; cbn in Ha, Hb; done.
Qed.

Lemma reconstruct_path_chain_witness :
  let nodes := [Node_init "root" canonical_goal None [] 0;
                Node_init "up" canonical_goal (Some 0) [] 0] in
  head [1; 0] = Some 1
  ∧ (∃ r nd, last [1; 0] = Some r ∧ nodes !! r = Some nd ∧ parent nd = None)
  ∧ ∀ i a b, [1; 0] !! i = Some a → [1; 0] !! S i = Some b →
             ∃ nd, nodes !! a = Some nd ∧ parent nd = Some b.
Proof.
  apply (reconstruct_path_chain 2
           [Node_init "root" canonical_goal None [] 0;
            Node_init "up" canonical_goal (Some 0) [] 0] 1 [1; 0]).
  reflexivity.
Defined.

(** * Further properties of [get_neighbors] *)

Lemma where_blank_None (p : list nat) : where_blank p = None ↔ 0 ∉ p.
Proof.
  unfold where_blank.
  destruct (list_find (λ v, v = 0) p) as [[i v]|] eqn:Hf; cbn.
  - apply list_find_Some in Hf as (Hl & -> & _). split; [done|].
    intros Hn. destruct Hn. by eapply list_elem_of_lookup_2.
  - apply list_find_None in Hf. rewrite Forall_forall in Hf.
    split; [|done]. intros _ Hin. by apply (Hf 0 Hin).
Qed.

(** X13.  [get_neighbors] raises exactly when the puzzle does not have 9
    entries or holds no blank; otherwise it returns a list. *)
Theorem get_neighbors_raises_iff (pid : nat) (node : Node) :
  get_neighbors pid node = None
  ↔ length (puzzle node) ≠ 9 ∨ 0 ∉ puzzle node.
Proof.
  unfold get_neighbors, np_reshape33.
  destruct (decide (length (puzzle node) = 9)); cbn [mbind option_bind]; [|tauto].
  destruct (where_blank (puzzle node)) as [[row col]|] eqn:Hw;
    cbn [mbind option_bind].
  - split; [done|]. intros [?|Hn]; [done|]. apply where_blank_None in Hn.
    congruence.
  - apply where_blank_None in Hw. tauto.
Qed.

(** The four stages of [get_neighbors] once the blank is located. *)
Lemma get_neighbors_elem (pid : nat) (node : Node) (nbs : list Node) (n : Node) :
  get_neighbors pid node = Some nbs → n ∈ nbs →
  ∃ row col,
    where_blank (puzzle node) = Some (row, col) ∧ length (puzzle node) = 9
    ∧ parent n = Some pid ∧ children n = []
    ∧ ((row ≠ 0 ∧ puzzle n = slide (puzzle node) row col (row - 1) col)
       ∨ (row ≠ 2 ∧ puzzle n = slide (puzzle node) row col (row + 1) col)
       ∨ (col ≠ 0 ∧ puzzle n = slide (puzzle node) row col row (col - 1))
       ∨ (col ≠ 2 ∧ puzzle n = slide (puzzle node) row col row (col + 1))).
Proof.
  unfold get_neighbors, np_reshape33.
  destruct (decide (length (puzzle node) = 9)); cbn [mbind option_bind]; [|done].
  destruct (where_blank (puzzle node)) as [[row col]|]; cbn [mbind option_bind];
    [|done].
  intros [= <-] Hn. exists row, col. do 2 (split; [done|]).
  revert Hn. repeat case_decide;
    rewrite ?elem_of_app, ?elem_of_cons, ?elem_of_nil;
    intros Hn; repeat destruct Hn as [Hn|Hn]; try done; subst n;
    cbn [Node_init parent children puzzle]; (do 2 (split; [done|]));
    change (3 - 1) with 2 in *; tauto.
Qed.

(** Whatever the node's own move, each of its neighbours is one legal move
    away from its puzzle. *)
Lemma get_neighbors_legal (pid : nat) (node : Node) (nbs : list Node) (n : Node) :
  get_neighbors pid node = Some nbs → n ∈ nbs →
  legal_move (puzzle node) (puzzle n).
Proof.
  intros Hg Hn.
  destruct (get_neighbors_elem pid node nbs n Hg Hn)
    as (row & col & Hw & Hlen & _ & _ & Hdir).
  unfold legal_move, get_neighbors, np_reshape33.
  cbn [Node_init puzzle name]. rewrite decide_True by done.
  cbn [mbind option_bind]. rewrite Hw. cbn [mbind option_bind].
  change (3 - 1) with 2.
  destruct Hdir as [[H ->]|[[H ->]|[[H ->]|[H ->]]]].
  - eexists _, (Node_init "up" _ (Some 0) [] 0). split; [reflexivity|].
    split; [|reflexivity]. rewrite (decide_True (P:=row ≠ 0 ∧ _)) by done.
    repeat case_decide; rewrite ?elem_of_app, ?elem_of_cons; intuition auto.
  - eexists _, (Node_init "down" _ (Some 0) [] 0). split; [reflexivity|].
    split; [|reflexivity]. rewrite (decide_True (P:=row ≠ 2 ∧ _)) by done.
    repeat case_decide; rewrite ?elem_of_app, ?elem_of_cons; intuition auto.
  - eexists _, (Node_init "left" _ (Some 0) [] 0). split; [reflexivity|].
    split; [|reflexivity]. rewrite (decide_True (P:=col ≠ 0 ∧ _)) by done.
    repeat case_decide; rewrite ?elem_of_app, ?elem_of_cons; intuition auto.
  - eexists _, (Node_init "right" _ (Some 0) [] 0). split; [reflexivity|].
    split; [|reflexivity]. rewrite (decide_True (P:=col ≠ 2 ∧ _)) by done.
    repeat case_decide; rewrite ?elem_of_app, ?elem_of_cons; intuition auto.
Qed.

(** * The search tree of a run *)

(** The store of a run from [start]: node 0 is the root and holds [start];
    every other node points to an earlier node, one legal move before it;
    children are later nodes of the store. *)
Definition store_wf (start : list nat) (ns : list Node) : Prop :=
  (∃ r, ns !! 0 = Some r ∧ puzzle r = start ∧ parent r = None)
  ∧ (∀ id nd, ns !! id = Some nd → id ≠ 0 →
              ∃ p pn, parent nd = Some p ∧ p < id ∧ ns !! p = Some pn
                      ∧ legal_move (puzzle pn) (puzzle nd))
  ∧ (∀ id nd, ns !! id = Some nd →
              Forall (λ c, id < c < length ns) (children nd)).

Definition tree_inv (start goal : list nat) (c : Config) : Prop :=
  match c with
  | Loop σ => store_wf start (nodes σ)
  | ForEach σ current pending =>
      store_wf start (nodes σ)
      ∧ Forall (λ id, current < id < length (nodes σ)) pending
  | Return σ r =>
      store_wf start (nodes σ)
      ∧ match r with
        | Found current root =>
            root = 0 ∧ ∃ nd, nodes σ !! current = Some nd ∧ puzzle nd = goal
        | _ => True
        end
  end.

Lemma lookup_alter_Some (ns : list Node) (f : Node → Node) (k id : nat) (nd' : Node) :
  alter f k ns !! id = Some nd' →
  ∃ nd, ns !! id = Some nd ∧ nd' = if decide (id = k) then f nd else nd.
Proof.
  destruct (decide (id = k)) as [->|Hne].
  - rewrite list_lookup_alter_eq. destruct (ns !! k) as [nd|]; [|done].
    intros [= <-]. by exists nd.
  - rewrite list_lookup_alter_ne by done. intros H. by exists nd'.
Qed.

Lemma lookup_alter_keeps (ns : list Node) (f : Node → Node) (k id : nat) (nd : Node) :
  (∀ n, puzzle (f n) = puzzle n ∧ parent (f n) = parent n) →
  ns !! id = Some nd →
  ∃ nd', alter f k ns !! id = Some nd' ∧ puzzle nd' = puzzle nd
         ∧ parent nd' = parent nd.
Proof.
  intros Hf Hl. destruct (decide (id = k)) as [->|Hne].
  - exists (f nd). rewrite list_lookup_alter_eq, Hl. split; [done|]. apply Hf.
  - exists nd. by rewrite list_lookup_alter_ne.
Qed.

Lemma store_wf_alter (start : list nat) (ns : list Node) (f : Node → Node) (k : nat) :
  store_wf start ns →
  (∀ n, puzzle (f n) = puzzle n ∧ parent (f n) = parent n) →
  (∀ n, ns !! k = Some n →
        Forall (λ c, k < c < length ns) (children n) →
        Forall (λ c, k < c < length ns) (children (f n))) →
  store_wf start (alter f k ns).
Proof.
  intros ((r & Hr & Hrp & Hrn) & Hpar & Hch) Hf Hfc. split; [|split].
  - destruct (lookup_alter_keeps ns f k 0 r Hf Hr) as (r' & Hr' & Hp' & Hn').
    exists r'. split; [done|]. split; congruence.
  - intros id nd' (nd & Hnd & ->)%lookup_alter_Some Hid.
    destruct (Hpar id nd Hnd Hid) as (p & pn & Hp & Hlt & Hpn & Hmove).
    destruct (lookup_alter_keeps ns f k p pn Hf Hpn) as (pn' & Hpn' & Hpp & _).
    exists p, pn'. rewrite Hpp.
    case_decide; [destruct (Hf nd) as [-> ->]|]; done.
  - intros id nd' (nd & Hnd & ->)%lookup_alter_Some.
    rewrite length_alter. case_decide as Hk; [subst id|by eapply Hch].
    apply Hfc; [done|]. by eapply Hch.
Qed.

Lemma store_wf_app (start : list nat) (ns new : list Node) (cur : nat) (ndc : Node) :
  store_wf start ns → ns !! cur = Some ndc →
  Forall (λ n, parent n = Some cur ∧ children n = []
               ∧ legal_move (puzzle ndc) (puzzle n)) new →
  store_wf start (ns ++ new).
Proof.
  intros ((r & Hr & Hrp & Hrn) & Hpar & Hch) Hcur Hnew. split; [|split].
  - exists r. by rewrite (lookup_app_l_Some _ _ _ _ Hr).
  - intros id nd Hnd Hid. apply lookup_app_Some in Hnd as [Hnd|[Hge Hnd]].
    + destruct (Hpar id nd Hnd Hid) as (p & pn & Hp & Hlt & Hpn & Hmove).
      exists p, pn. by rewrite (lookup_app_l_Some _ _ _ _ Hpn).
    + rewrite Forall_forall in Hnew.
      destruct (Hnew nd) as (Hp & _ & Hmove); [by eapply list_elem_of_lookup_2|].
      exists cur, ndc. rewrite (lookup_app_l_Some _ _ _ _ Hcur).
      apply lookup_lt_Some in Hcur. repeat split; try done. lia.
  - intros id nd Hnd. rewrite length_app.
    apply lookup_app_Some in Hnd as [Hnd|[Hge Hnd]].
    + eapply Forall_impl; [by eapply Hch|]. cbn. lia.
    + rewrite Forall_forall in Hnew.
      destruct (Hnew nd) as (_ & -> & _); [by eapply list_elem_of_lookup_2|].
      constructor.
Qed.

Section search_tree.
Variable pq : PriorityQueue.
Variables (goal : list nat) (heuristics : list Heuristic) (weights : list Q).
Variable start : list nat.

Lemma tree_inv_init :
  tree_inv start goal (a_star_init pq goal heuristics weights start).
Proof.
  assert (∀ h, store_wf start [set_heuristic h (Node_init "root" start None [] 0)])
    as Hwf.
  { intros h. split; [|split].
    - by eexists.
    - intros [|id] nd Hnd Hid; [done|]. by destruct id.
    - intros [|id] nd Hnd; [|by destruct id]. injection Hnd as <-. constructor. }
  unfold a_star_init.
  destruct (combine_heuristics _ goal heuristics weights); [apply Hwf|].
  split; [|done]. apply (Hwf 0%Q).
Qed.

Lemma tree_inv_step (c : Config) :
  tree_inv start goal c → tree_inv start goal (step pq goal heuristics weights c).
Proof.
  destruct c as [σ|σ current [|nb rest]|σ r]; cbn [step tree_inv].
  - intros Hwf. unfold loop_step.
    destruct (open_set σ) as [|e0 q0] eqn:Hq; [by split|]. rewrite <- Hq. clear Hq.
    destruct (pq_get pq (open_set σ)) as [[[sc current] rest]|]; [|by split].
    cbn [nodes]. destruct (nodes σ !! current) as [cur|] eqn:Hcur; [|by split].
    destruct (decide (puzzle cur = goal)) as [Hgoal|Hgoal];
      [split; [done|split; [done|by exists cur]]|].
    destruct (get_neighbors current cur) as [nbs|] eqn:Hnbs; [|by split].
    cbn [tree_inv nodes]. split.
    + apply (store_wf_app _ _ _ current cur); [done..|].
      apply Forall_forall. intros n Hn.
      destruct (get_neighbors_elem _ _ _ _ Hnbs Hn) as (_ & _ & _ & _ & Hp & Hc & _).
      split; [done|]. split; [done|]. by eapply get_neighbors_legal.
    + apply Forall_forall. intros id [Hge Hlt]%elem_of_seq.
      apply lookup_lt_Some in Hcur. rewrite length_app. lia.
  - tauto.
  - intros (Hwf & Hpend). apply Forall_cons in Hpend as [Hnb Hrest].
    assert (store_wf start (alter (append_child nb) current (nodes σ))) as Hwf_a.
    { apply store_wf_alter; [done|done|].
      intros n Hn Hc. cbn [append_child children].
      rewrite Forall_app. split; [done|]. by apply Forall_singleton. }
    assert (∀ ns' : list Node, length ns' = length (nodes σ) →
                   Forall (λ id, current < id < length ns') rest) as Hrest'.
    { intros ns' ->. done. }
    unfold for_step. cbn [nodes open_set g_score].
    set (ns_a := alter (append_child nb) current (nodes σ)) in *.
    assert (length ns_a = length (nodes σ)) as Hlen_a by apply length_alter.
    destruct (ns_a !! current) as [cur|]; [|by split].
    destruct (ns_a !! nb) as [nbn|]; [|by split].
    destruct (g_score σ !! puzzle cur) as [g|]; [|by split].
    destruct (match g_score σ !! puzzle nbn with
              | Some old => bool_decide (g + 1 < old)
              | None => true
              end); [|split; [done|by apply Hrest']].
    destruct (combine_heuristics (puzzle nbn) goal heuristics weights) as [h|];
      [|by split].
    set (sc := (inject_Z (Z.of_nat (g + 1)) + h)%Q).
    assert (store_wf start (alter (set_heuristic sc) nb ns_a)) as Hwf_c.
    { by apply store_wf_alter. }
    assert (Forall (λ id, current < id < length (alter (set_heuristic sc) nb ns_a))
                   rest) as Hrest_c.
    { apply Hrest'. by rewrite length_alter. }
    destruct (negb (in_open_set _ (sc, nb))); by split.
  - done.
Qed.

Lemma tree_inv_run (n : nat) :
  tree_inv start goal (a_star_run pq goal heuristics weights start n).
Proof.
  unfold a_star_run. induction n as [|n IH]; cbn [Nat.iter nat_rect].
  - apply tree_inv_init.
  - by apply tree_inv_step.
Qed.
End search_tree.

Lemma moves_snoc (k : nat) (s m g : list nat) :
  moves k s m → legal_move m g → moves (S k) s g.
Proof.
  intros Hm Hl. induction Hm as [s|k s s' m Hmove _ IH].
  - eapply moves_S; [done|apply moves_O].
  - eapply moves_S; [done|by apply IH].
Qed.

(** In a well-formed store the parent references of every node lead to the
    root, along legal moves from [start]. *)
Lemma store_path (start : list nat) (ns : list Node) :
  store_wf start ns →
  ∀ id nd fuel,
    ns !! id = Some nd → id < fuel →
    ∃ path, reconstruct_path fuel ns id = Some path
            ∧ head path = Some id ∧ last path = Some 0
            ∧ moves (length path - 1) start (puzzle nd).
Proof.
  intros ((r & Hr & Hrp & Hrn) & Hpar & _) id.
  induction id as [id IH] using lt_wf_ind. intros nd fuel Hnd Hfuel.
  destruct fuel as [|fuel]; [lia|]. cbn [reconstruct_path]. rewrite Hnd.
  cbn [mbind option_bind].
  destruct (decide (id = 0)) as [->|Hid].
  - rewrite Hr in Hnd. injection Hnd as <-. rewrite Hrn.
    exists [0]. repeat split; try done. rewrite Hrp. apply moves_O.
  - destruct (Hpar id nd Hnd Hid) as (p & pn & Hp & Hlt & Hpn & Hmove).
    rewrite Hp.
    destruct (IH p Hlt pn fuel Hpn ltac:(lia)) as (path & -> & Hh & Hl & Hm).
    cbn [mbind option_bind]. exists (id :: path).
    destruct path as [|p0 path]; [done|].
    repeat split; try done. cbn [length] in *.
    replace (S (S (length path)) - 1) with (S (S (length path) - 1)) by lia.
    by eapply moves_snoc.
Qed.

Lemma tree_of_store (start : list nat) (ns : list Node) :
  store_wf start ns →
  ∀ fuel id, id < length ns → length ns ≤ id + fuel →
             is_Some (tree_of fuel ns id).
Proof.
  intros (_ & _ & Hch) fuel.
  induction fuel as [|fuel IH]; intros id Hid Hfuel; [lia|].
  destruct (lookup_lt_is_Some_2 ns id Hid) as [nd Hnd].
  cbn [tree_of]. rewrite Hnd. cbn [mbind option_bind].
  assert (is_Some (mapM (tree_of fuel ns) (children nd))) as [kids ->].
  { apply mapM_is_Some, Forall_forall. intros c Hc.
    pose proof (Hch id nd Hnd) as Hall. rewrite Forall_forall in Hall.
    specialize (Hall c Hc). apply IH; lia. }
  by eexists.
Qed.

(** Consecutive nodes of a reconstructed path are child and parent, and
    the puzzle of the child is one legal move from the puzzle of the
    parent. *)
Lemma store_path_links (start : list nat) (ns : list Node) :
  store_wf start ns →
  ∀ fuel id path,
    reconstruct_path fuel ns id = Some path →
    ∀ i a b, path !! i = Some a → path !! S i = Some b →
             ∃ na nb, ns !! a = Some na ∧ ns !! b = Some nb
                      ∧ parent na = Some b
                      ∧ legal_move (puzzle nb) (puzzle na).
Proof.
  intros ((r & Hr & _ & Hrn) & Hpar & _) fuel.
  induction fuel as [|fuel IH]; intros id path; [done|].
  cbn [reconstruct_path].
  destruct (ns !! id) as [nd|] eqn:Hnd; cbn [mbind option_bind]; [|done].
  destruct (parent nd) as [p|] eqn:Hp.
  - destruct (reconstruct_path fuel ns p) as [tail|] eqn:Htail;
      cbn [mbind option_bind]; [|done].
    intros [= <-] [|i] a b Ha Hb; cbn in Ha, Hb.
    + injection Ha as <-.
      assert (id ≠ 0) as Hid by (intros ->; congruence).
      destruct (Hpar id nd Hnd Hid) as (p' & pn & Hp' & _ & Hpn & Hmove).
      assert (p' = p) as -> by congruence.
      assert (b = p) as ->.
      { destruct fuel as [|fuel]; [done|]. cbn [reconstruct_path] in Htail.
        rewrite Hpn in Htail. cbn [mbind option_bind] in Htail.
        destruct (parent pn).
        - destruct (reconstruct_path fuel ns n); cbn [mbind option_bind] in Htail;
            [|done].
          injection Htail as <-. cbn in Hb. congruence.
        - injection Htail as <-. cbn in Hb. congruence. }
      by exists nd, pn.
    + by eapply IH.
  - intros [= <-] [|i] a b Ha Hb; cbn in Ha, Hb; done.
Qed.

(** X14.  When [a_star] returns a node, that node holds the goal, the
    second component is the root, which holds the start, and
    [reconstruct_path] leads from the node back to the root: every node of
    the path is followed by its parent, and its puzzle is one legal move
    from the puzzle of the parent.  The path, reversed, solves the puzzle
    in [len(path) - 1] moves. *)
Theorem a_star_path_is_solution (pq : PriorityQueue) (goal : list nat)
    (heuristics : list Heuristic) (weights : list Q) (fuel : nat)
    (start : list nat) (σ : SearchState) (current root : nat) :
  a_star pq goal heuristics weights fuel start = Some (σ, Found current root) →
  root = 0
  ∧ ∃ nd r path,
      nodes σ !! current = Some nd ∧ puzzle nd = goal
      ∧ nodes σ !! root = Some r ∧ puzzle r = start
      ∧ reconstruct_path (length (nodes σ)) (nodes σ) current = Some path
      ∧ head path = Some current ∧ last path = Some root
      ∧ (∀ i a b, path !! i = Some a → path !! S i = Some b →
                  ∃ na nb, nodes σ !! a = Some na ∧ nodes σ !! b = Some nb
                           ∧ parent na = Some b
                           ∧ legal_move (puzzle nb) (puzzle na))
      ∧ moves (length path - 1) start goal.
Proof.
  unfold a_star. pose proof (tree_inv_run pq goal heuristics weights start fuel) as Hinv.
  destruct (a_star_run pq goal heuristics weights start fuel)
    as [?|? ? ?|σ' r]; try done.
  intros [= -> ->]. destruct Hinv as (Hwf & -> & nd & Hnd & Hgoal).
  split; [done|].
  destruct (store_path start (nodes σ) Hwf current nd (length (nodes σ)) Hnd)
    as (path & Hpath & Hh & Hl & Hm); [by eapply lookup_lt_Some|].
  pose proof (store_path_links start (nodes σ) Hwf _ _ _ Hpath) as Hlinks.
  destruct Hwf as ((r & Hr & Hrs & _) & _).
  exists nd, r, path. by rewrite <- Hgoal.
Qed.

Lemma a_star_path_is_solution_witness :
  ∃ σ current root,
    root = 0
    ∧ ∃ nd r path,
        nodes σ !! current = Some nd ∧ puzzle nd = canonical_goal
        ∧ nodes σ !! root = Some r ∧ puzzle r = [1; 0; 2; 3; 4; 5; 6; 7; 8]
        ∧ reconstruct_path (length (nodes σ)) (nodes σ) current = Some path
        ∧ head path = Some current ∧ last path = Some root
        ∧ (∀ i a b, path !! i = Some a → path !! S i = Some b →
                    ∃ na nb, nodes σ !! a = Some na ∧ nodes σ !! b = Some nb
                             ∧ parent na = Some b
                             ∧ legal_move (puzzle nb) (puzzle na))
        ∧ moves (length path - 1) [1; 0; 2; 3; 4; 5; 6; 7; 8] canonical_goal.
Proof.
  eexists _, _, _.
  eapply (a_star_path_is_solution fifo_queue canonical_goal
            [manhattan_distance; hamming_distance] [1%Q; 0%Q] 10
            [1; 0; 2; 3; 4; 5; 6; 7; 8]).
  vm_compute. reflexivity.
Defined.

(** X15.  From a state that [is_solvable] rejects, [a_star] towards the
    ascending goal never returns a node, whatever the queue, the heuristics,
    the weights and the number of steps. *)
Theorem unsolvable_start_never_found (pq : PriorityQueue)
    (heuristics : list Heuristic) (weights : list Q) (fuel : nat)
    (start : list nat) (σ : SearchState) (current root : nat) :
  is_state start → is_solvable start = Some false →
  a_star pq canonical_goal heuristics weights fuel start
  ≠ Some (σ, Found current root).
Proof.
  intros Hs Hun Hrun. unfold a_star in Hrun.
  pose proof (tree_inv_run pq canonical_goal heuristics weights start fuel) as Hinv.
  destruct (a_star_run pq canonical_goal heuristics weights start fuel)
    as [?|? ? ?|σ' r]; try done.
  injection Hrun as -> ->. destruct Hinv as (Hwf & _ & nd & Hnd & Hgoal).
  destruct (store_path start (nodes σ) Hwf current nd (length (nodes σ)) Hnd)
    as (path & _ & _ & _ & Hm); [by eapply lookup_lt_Some|].
  rewrite Hgoal in Hm.
  pose proof (moves_solvable _ _ _ Hs Hm) as Heq. by rewrite Hun in Heq.
Qed.

Lemma unsolvable_start_never_found_witness :
  a_star fifo_queue canonical_goal [manhattan_distance; hamming_distance]
         [1%Q; 0%Q] 3 [2; 1; 0; 3; 4; 5; 6; 7; 8]
  ≠ Some (mkState [] [] ∅, Found 0 0).
Proof.
  apply (unsolvable_start_never_found fifo_queue
           [manhattan_distance; hamming_distance] [1%Q; 0%Q] 3
           [2; 1; 0; 3; 4; 5; 6; 7; 8]).
  - apply (bool_decide_unpack _). by vm_compute.
  - reflexivity.
Defined.

(** X16.  After a search that returned a node, the metrics never raise:
    [solve] reports a path from that node to the root, a visited count and
    an expanded count of at least 1 and at most the visited count. *)
Theorem solve_reports_metrics (initial_state : list nat) (pq : PriorityQueue)
    (fuel : nat) (start goal : list nat) (heuristics : list Heuristic)
    (weights : list Q) (σ : SearchState) (current root : nat) :
  is_solvable initial_state = Some true →
  a_star pq goal heuristics weights fuel start = Some (σ, Found current root) →
  ∃ m, solve (Some initial_state) pq fuel start goal heuristics weights
       = SolveSolved m
       ∧ head (m_path m) = Some current ∧ last (m_path m) = Some root
       ∧ 1 ≤ m_expanded_nodes m ≤ m_visited_nodes m.
Proof.
  intros Hgate Hrun. unfold solve. rewrite Hgate. cbn [negb]. rewrite Hrun.
  cbn [solve_search]. unfold a_star in Hrun.
  pose proof (tree_inv_run pq goal heuristics weights start fuel) as Hinv.
  destruct (a_star_run pq goal heuristics weights start fuel)
    as [?|? ? ?|σ' r]; try done.
  injection Hrun as -> ->. destruct Hinv as (Hwf & -> & nd & Hnd & Hgoal).
  destruct (store_path start (nodes σ) Hwf current nd (length (nodes σ)) Hnd)
    as (path & Hpath & Hh & Hl & _); [by eapply lookup_lt_Some|].
  pose proof (lookup_lt_Some _ _ _ Hnd) as Hlen.
  destruct (tree_of_store start (nodes σ) Hwf (length (nodes σ)) 0) as [t Ht];
    [lia..|].
  unfold generate_metrics. rewrite Hpath. cbn [mbind option_bind].
  rewrite Ht. cbn [mbind option_bind].
  pose proof (nodes_with_children_lt t) as Hlt.
  pose proof (calculate_expanded_nodes_count t) as He.
  rewrite <- Node_len_counts_nodes_aux in Hlt.
  assert (1 ≤ calculate_expanded_nodes t ≤ Node_len t) as Hb.
  { split; [unfold calculate_expanded_nodes; lia|]. destruct (tree_kids t); lia. }
  unfold calculate_branching_factor.
  destruct (Qeq_bool _ 0) eqn:Hz.
  { apply Qeq_bool_iff in Hz. unfold Qeq in Hz. cbn in Hz. lia. }
  eexists. split; [reflexivity|]. done.
Qed.

Lemma solve_reports_metrics_witness :
  ∃ m, solve (Some [2; 4; 0; 5; 6; 1; 8; 7; 3]) fifo_queue 10
             [1; 0; 2; 3; 4; 5; 6; 7; 8] canonical_goal
             [manhattan_distance; hamming_distance] [1%Q; 0%Q]
       = SolveSolved m
       ∧ head (m_path m) = Some 2 ∧ last (m_path m) = Some 0
       ∧ 1 ≤ m_expanded_nodes m ≤ m_visited_nodes m.
Proof.
  eapply (solve_reports_metrics [2; 4; 0; 5; 6; 1; 8; 7; 3] fifo_queue 10
            [1; 0; 2; 3; 4; 5; 6; 7; 8] canonical_goal
            [manhattan_distance; hamming_distance] [1%Q; 0%Q]).
  - reflexivity.
  - vm_compute. reflexivity.
Defined.

(** * The search raises no exception on well-formed input *)

Definition all_states (ns : list Node) : Prop :=
  Forall (λ nd, is_state (puzzle nd)) ns.

Definition safe_inv (c : Config) : Prop :=
  match c with
  | Loop σ => all_states (nodes σ)
  | ForEach σ current pending =>
      all_states (nodes σ)
      ∧ (∃ nd, nodes σ !! current = Some nd ∧ is_Some (g_score σ !! puzzle nd))
      ∧ Forall (λ id, id < length (nodes σ)) pending
  | Return σ r => r ≠ Raised
  end.

Lemma get_neighbors_states (pid : nat) (node : Node) :
  is_state (puzzle node) →
  ∃ nbs, get_neighbors pid node = Some nbs
         ∧ Forall (λ n, is_state (puzzle n)) nbs.
Proof.
  intros Hp.
  destruct (get_neighbors_state pid node Hp) as (row & col & _ & Hr & Hc & _ & Hg).
  eexists. split; [exact Hg|]. apply Forall_forall. intros n Hn.
  apply (candidates_elem _ (λ d, Node_init d _ (Some pid) [] 0)) in Hn
    as (d & Hd & [Hin _] & ->).
  destruct (moved_cell_adjacent d row col Hr Hc Hd Hin) as [(? & ? & _) _].
  cbn [Node_init puzzle]. by apply swap_cells_state.
Qed.

Section no_exception.
Variable pq : PriorityQueue.
Variables (goal : list nat) (heuristics : list Heuristic) (weights : list Q).
Hypothesis combine_total :
  ∀ p, is_state p → is_Some (combine_heuristics p goal heuristics weights).

Lemma safe_inv_init (start : list nat) :
  is_state start → safe_inv (a_star_init pq goal heuristics weights start).
Proof.
  intros Hs. unfold a_star_init. cbn [Node_init puzzle].
  destruct (combine_total start Hs) as [h ->]. cbn [safe_inv nodes].
  by apply Forall_singleton.
Qed.

Lemma safe_inv_step (c : Config) :
  search_inv goal heuristics weights c → safe_inv c →
  safe_inv (step pq goal heuristics weights c).
Proof.
  destruct c as [σ|σ current [|nb rest]|σ r]; cbn [step search_inv safe_inv].
  - intros Hok Hst. unfold loop_step.
    destruct (open_set σ) as [|e0 q0] eqn:Hq; [done|].
    destruct (pq_get_nonempty pq (open_set σ)) as [[[sc current] q'] Hget];
      [by rewrite Hq|].
    rewrite <- Hq, Hget. clear Hq.
    pose proof (pq_get_perm pq _ _ _ Hget) as Hperm.
    destruct (frontier_ok_get goal heuristics weights σ _ _ Hok Hperm)
      as (_ & _ & (nd & _ & gmin & _ & Hnd & _ & Hg & _)).
    cbn [nodes g_score snd] in *. rewrite Hnd.
    destruct (decide (puzzle nd = goal)); [done|].
    pose proof (proj1 (Forall_lookup _ _) Hst _ _ Hnd) as Hnds. cbn in Hnds.
    destruct (get_neighbors_states current nd Hnds) as (nbs & -> & Hnbs).
    cbn [safe_inv nodes g_score]. split; [by apply Forall_app|]. split.
    + exists nd. by rewrite (lookup_app_l_Some _ _ _ _ Hnd).
    + apply Forall_forall. intros id [_ Hlt]%elem_of_seq. rewrite length_app. lia.
  - tauto.
  - intros _ (Hst & (nd & Hnd & Hg) & Hpend).
    apply Forall_cons in Hpend as [Hnb Hrest].
    unfold for_step. cbn [nodes open_set g_score].
    set (ns_a := alter (append_child nb) current (nodes σ)).
    assert (all_states ns_a) as Hst_a by (by apply Forall_alter).
    assert (ns_a !! current = Some (append_child nb nd)) as ->
      by (unfold ns_a; by rewrite list_lookup_alter_eq, Hnd).
    destruct (lookup_lt_is_Some_2 ns_a nb) as [nbn Hnbn];
      [unfold ns_a; by rewrite length_alter|].
    rewrite Hnbn. cbn [append_child puzzle].
    destruct Hg as [g Hg]. rewrite Hg.
    assert (∀ (ns' : list Node) (gs : gmap (list nat) nat),
              all_states ns' → length ns' = length (nodes σ) →
              (∃ nd', ns' !! current = Some nd' ∧ puzzle nd' = puzzle nd) →
              is_Some (gs !! puzzle nd) →
              all_states ns'
              ∧ (∃ nd', ns' !! current = Some nd' ∧ is_Some (gs !! puzzle nd'))
              ∧ Forall (λ id, id < length ns') rest) as Hkeep.
    { intros ns' gs Hall Hlen (nd' & Hnd' & Hp') Hgs. split; [done|]. split.
      - exists nd'. by rewrite Hp'.
      - by rewrite Hlen. }
    assert (∃ nd', ns_a !! current = Some nd' ∧ puzzle nd' = puzzle nd) as Hcur_a.
    { exists (append_child nb nd). unfold ns_a.
      by rewrite list_lookup_alter_eq, Hnd. }
    destruct (match g_score σ !! puzzle nbn with
              | Some old => bool_decide (g + 1 < old)
              | None => true
              end).
    2:{ apply (Hkeep ns_a (g_score σ)); [done|apply length_alter|done|by eexists]. }
    pose proof (proj1 (Forall_lookup _ _) Hst_a _ _ Hnbn) as Hnbs. cbn in Hnbs.
    destruct (combine_total _ Hnbs) as [h ->].
    set (sc := (inject_Z (Z.of_nat (g + 1)) + h)%Q).
    assert (all_states (alter (set_heuristic sc) nb ns_a)) as Hst_c
      by (by apply Forall_alter).
    assert (∃ nd', alter (set_heuristic sc) nb ns_a !! current = Some nd'
                   ∧ puzzle nd' = puzzle nd) as Hcur_c.
    { destruct Hcur_a as (nd' & Hnd' & Hp').
      destruct (lookup_alter_keeps ns_a (set_heuristic sc) nb current nd')
        as (nd'' & ? & ? & _); [done|done|].
      exists nd''. split; [done|congruence]. }
    assert (is_Some (<[puzzle nbn := g + 1]> (g_score σ) !! puzzle nd)) as Hg'.
    { apply lookup_insert_is_Some'. right. by rewrite Hg. }
    destruct (negb (in_open_set _ (sc, nb))); cbn [safe_inv nodes g_score];
      (apply (Hkeep (alter (set_heuristic sc) nb ns_a)
                    (<[puzzle nbn := g + 1]> (g_score σ)));
       [done|unfold ns_a; by rewrite !length_alter|done|done]).
  - done.
Qed.

Lemma safe_inv_run (start : list nat) (n : nat) :
  is_state start → safe_inv (a_star_run pq goal heuristics weights start n).
Proof.
  intros Hs. unfold a_star_run. induction n as [|n IH]; cbn [Nat.iter nat_rect].
  - by apply safe_inv_init.
  - apply safe_inv_step; [|done]. apply (search_inv_run pq goal heuristics weights start n).
Qed.
End no_exception.

Lemma repo_heuristics_total (goal : list nat) (weights : list Q) :
  is_state goal → 2 ≤ length weights →
  ∀ p, is_state p →
       is_Some (combine_heuristics p goal [manhattan_distance; hamming_distance]
                                   weights).
Proof.
  intros Hg Hw p Hp.
  destruct (combine_loop_weighted_sum p goal weights
              [manhattan_distance; hamming_distance]
              [flat_distance p goal; misplaced_in p goal (seq 0 9)])
    with (i := 0) (total := 0%Q) as (q & Hq & _).
  - constructor; [by apply manhattan_distance_state|].
    constructor; [|constructor].
    apply hamming_distance_length; by apply is_state_length.
  - cbn [length]. lia.
  - by exists q.
Qed.

(** X17.  With the two heuristics of the repository, states as start and
    goal, and at least two weights, [a_star] raises no exception, whatever
    the queue and however long it runs. *)
Theorem a_star_never_raises (pq : PriorityQueue) (goal : list nat)
    (weights : list Q) (fuel : nat) (start : list nat) (σ : SearchState) :
  is_state start → is_state goal → 2 ≤ length weights →
  a_star pq goal [manhattan_distance; hamming_distance] weights fuel start
  ≠ Some (σ, Raised).
Proof.
  intros Hs Hg Hw Hrun. unfold a_star in Hrun.
  pose proof (safe_inv_run pq goal [manhattan_distance; hamming_distance] weights
                (repo_heuristics_total goal weights Hg Hw) start fuel Hs) as Hinv.
  destruct (a_star_run pq goal [manhattan_distance; hamming_distance] weights
              start fuel) as [?|? ? ?|σ' r]; try done.
  injection Hrun as -> ->. by apply Hinv.
Qed.

Lemma a_star_never_raises_witness :
  a_star fifo_queue canonical_goal [manhattan_distance; hamming_distance]
         [1%Q; 0%Q] 10 [1; 0; 2; 3; 4; 5; 6; 7; 8]
  ≠ Some (mkState [] [] ∅, Raised).
Proof.
  apply (a_star_never_raises fifo_queue canonical_goal [1%Q; 0%Q] 10
           [1; 0; 2; 3; 4; 5; 6; 7; 8]).
  - apply (bool_decide_unpack _). by vm_compute.
  - apply (bool_decide_unpack _). by vm_compute.
  - cbn. lia.
Defined.

(** * The search from the goal itself *)

Lemma iter_step_return (pq : PriorityQueue) (goal : list nat)
    (heuristics : list Heuristic) (weights : list Q) (σ : SearchState)
    (r : Outcome) (n : nat) :
  Nat.iter n (step pq goal heuristics weights) (Return σ r) = Return σ r.
Proof. induction n as [|n IH]; [done|]. by rewrite Nat.iter_succ, IH. Qed.

(** X18.  Started on the goal itself, [a_star] returns the root at its first
    pass through the loop, with a store of one node and an empty frontier,
    whatever the queue; it needs the heuristics only not to raise on the
    goal. *)
Theorem a_star_start_is_goal (pq : PriorityQueue) (goal : list nat)
    (heuristics : list Heuristic) (weights : list Q) (fuel : nat) :
  is_Some (combine_heuristics goal goal heuristics weights) →
  ∃ σ, a_star pq goal heuristics weights (S fuel) goal = Some (σ, Found 0 0)
       ∧ length (nodes σ) = 1 ∧ open_set σ = []
       ∧ children <$> nodes σ !! 0 = Some [].
Proof.
  intros [h Hh]. unfold a_star, a_star_run. rewrite Nat.iter_succ_r.
  unfold a_star_init. cbn [Node_init puzzle]. rewrite Hh.
  set (sc := (inject_Z 0 + h)%Q).
  pose proof (pq_put_perm pq (sc, 0) []) as Hput.
  apply Permutation_singleton_r in Hput.
  cbn [step]. unfold loop_step. cbn [open_set nodes g_score]. rewrite Hput.
  match goal with
  | |- context [pq_get pq ?q] =>
      pose proof (pq_get_nonempty pq q) as Hne;
      destruct (pq_get pq q) as [[e rest]|] eqn:Hget
  end.
  2:{ by destruct Hne as [? ?]. }
  apply pq_get_perm, Permutation_singleton_l in Hget.
  injection Hget as <- <-. cbn [lookup list_lookup set_heuristic puzzle].
  rewrite decide_True by done. rewrite iter_step_return.
  eexists. split; [reflexivity|]. done.
Qed.

Lemma a_star_start_is_goal_witness :
  ∃ σ, a_star fifo_queue canonical_goal [manhattan_distance; hamming_distance]
              [1%Q; 0%Q] (S 0) canonical_goal = Some (σ, Found 0 0)
       ∧ length (nodes σ) = 1 ∧ open_set σ = []
       ∧ children <$> nodes σ !! 0 = Some [].
Proof.
  apply (a_star_start_is_goal fifo_queue canonical_goal
           [manhattan_distance; hamming_distance] [1%Q; 0%Q] 0).
  eexists. vm_compute. reflexivity.
Defined.

(** * Two more facts about the bookkeeping *)

(** X19.  [calculate_expanded_nodes] is the number of nodes that have a
    child, plus one when the root itself has none: the root is counted in
    either case, every other node only if it has a child. *)
Theorem expanded_count_with_root (root : Tree) :
  calculate_expanded_nodes root
  = nodes_with_children root + (if tree_kids root is [] then 1 else 0)
  ∧ (tree_kids root ≠ [] → calculate_expanded_nodes root = nodes_with_children root).
Proof.
  pose proof (calculate_expanded_nodes_count root) as He. split.
  - rewrite He. by destruct (tree_kids root).
  - intros Hk. rewrite He. destruct (tree_kids root); [done|lia].
Qed.

(** X20.  The membership test that guards the [put] in [a_star] is false on
    every frontier and every pair: it looks for the pair among the
    components of each entry, a number and a node.  So the guard never
    holds back an entry. *)
Theorem membership_test_never_true (σ : SearchState) (e : Entry) :
  in_open_set σ e = false
  ∧ Forall (λ item, py_in (nodes σ) (entry_val e) (entry_val item) = false)
           (open_set σ).
Proof.
  split.
  - unfold in_open_set. induction (open_set σ) as [|item q IH]; [done|].
    cbn [existsb]. by rewrite IH.
  - apply Forall_forall. intros item _. reflexivity.
Qed.
